(** * mpags-cipher: the chunked, threaded cipher driver

    A shallow embedding of [mpags-cipher.cpp] (the [main] function of the
    program) together with the collaborators it calls that live in other
    translation units ([transformChar], [cipherFactory] and the three cipher
    classes), and the properties of the chunk / apply / reassemble pipeline.

    Conventions
    - a [std::string] is a [list ascii] ([text]); literals are written with
      [str "..."];
    - a [std::size_t] is an [N]; every addition, subtraction and
      multiplication of the source is followed by [wrap], the reduction
      modulo 2^64;
    - [std::string::substr] throws [std::out_of_range] when the start offset
      lies beyond the end of the string: it returns an [option];
    - the worker threads are a vector of futures; a schedule says which
      thread moves next, a worker that completes or the main thread. *)

From Stdlib Require Import NArith Ascii String Lia.
From stdpp Require Import base option list strings.

Local Open Scope N_scope.

(* ================================================================= *)
(** ** Strings and [std::size_t] *)

Definition text := list ascii.

Definition str (s : string) : text := list_ascii_of_string s.

(** [std::size_t] arithmetic: 64 bits, unsigned, wrapping. *)
Definition SIZE_MAX1 : N := 2 ^ 64.
Definition wrap (x : N) : N := x mod SIZE_MAX1.

(** [std::string::size]. *)
Definition size (s : text) : N := N.of_nat (length s).

(** [s.substr(pos, len)]: the characters [pos, pos + min(len, size - pos)),
    or [std::out_of_range] ([None]) when [pos > size]. *)
Definition substr (s : text) (pos len : N) : option text :=
  if size s <? pos then None
  else Some (take (N.to_nat len) (drop (N.to_nat pos) s)).

(* ================================================================= *)
(** ** Character classes ([<cctype>], "C" locale) *)

Definition isupper (c : ascii) : bool :=
  (65 <=? N_of_ascii c) && (N_of_ascii c <=? 90).

Definition islower (c : ascii) : bool :=
  (97 <=? N_of_ascii c) && (N_of_ascii c <=? 122).

Definition isalpha (c : ascii) : bool := isupper c || islower c.

Definition isdigit (c : ascii) : bool :=
  (48 <=? N_of_ascii c) && (N_of_ascii c <=? 57).

Definition isspace (c : ascii) : bool :=
  (N_of_ascii c =? 32) || ((9 <=? N_of_ascii c) && (N_of_ascii c <=? 13)).

Definition toupper (c : ascii) : ascii :=
  if islower c then ascii_of_N (N_of_ascii c - 32) else c.

(* ================================================================= *)
(** ** The sanitizer ([TransformChar.hpp]) *)

(** Modelled from the spec: [transformChar] is declared in
    [TransformChar.hpp]; its definition is not in [mpags-cipher.cpp].
    Section 4.1: a letter is mapped to its uppercase form, a digit passes
    through unchanged, any other character is absent. *)
Definition transformChar (inputChar : ascii) : option ascii :=
  if isalpha inputChar then Some (toupper inputChar)
  else if isdigit inputChar then Some inputChar
  else None.

(** [inputText += transformChar(inputChar)]: an absent character appends
    nothing. *)
Definition appendTransformed (inputText : text) (inputChar : ascii) : text :=
  match transformChar inputChar with
  | Some c => inputText ++ [c]
  | None => inputText
  end.

(** [while (inputStream >> inputChar) { inputText += transformChar(inputChar); }]
    (main, lines 82-84 and 89-91).  Formatted extraction of a [char] skips
    white space; the loop ends at the end of the stream. *)
Fixpoint readLoop (inputStream : text) (inputText : text) : text :=
  match inputStream with
  | [] => inputText
  | inputChar :: rest =>
      if isspace inputChar then readLoop rest inputText
      else readLoop rest (appendTransformed inputText inputChar)
  end.

(** The sanitizer applied to a whole text, and the alphabet it produces. *)
Definition sanitize (raw : text) : text := readLoop raw [].

Definition sanitized (t : text) : Prop :=
  Forall (fun c => isupper c || isdigit c = true) t.

(* ================================================================= *)
(** ** The ciphers ([CipherMode.hpp], [CipherType.hpp], [CipherFactory.hpp]) *)

Inductive CipherMode := Encrypt | Decrypt.

Inductive CipherType := Caesar | Playfair | Vigenere.

(** *** Caesar *)

(** Position of an uppercase letter in the alphabet A-Z, and back. *)
Definition letterIndex (c : ascii) : N := N_of_ascii c - 65.
Definition letterAt (i : N) : ascii := ascii_of_N (65 + i).

(** Modelled from the spec: the Caesar, Vigenere and Playfair classes
    behind [applyCipher] are not in [mpags-cipher.cpp].  Section 4.3,
    Caesar: a modular shift within the 26-letter alphabet, negated for
    [Decrypt]; digits (and anything that is not an uppercase letter) pass
    through unchanged. *)
Definition shiftLetter (mode : CipherMode) (shift : N) (c : ascii) : ascii :=
  if isupper c then
    match mode with
    | Encrypt => letterAt ((letterIndex c + shift mod 26) mod 26)
    | Decrypt => letterAt ((letterIndex c + (26 - shift mod 26)) mod 26)
    end
  else c.

Definition caesarApply (shift : N) (mode : CipherMode) (t : text) : text :=
  map (shiftLetter mode shift) t.

(** Modelled from the spec: section 4.2, the Caesar key is reducible to an
    integer shift in [0, 25]; the empty key is shift 0.  A key is read as a
    decimal number and reduced modulo 26; a key with another character in it
    is invalid. *)
Definition digitValue (c : ascii) : N := N_of_ascii c - 48.

Definition caesarKey (key : text) : option N :=
  if forallb isdigit key
  then Some (fold_left (fun acc c => 10 * acc + digitValue c) key 0 mod 26)
  else None.

(** *** Vigenere *)

(** Modelled from the spec: section 4.3, Vigenere.  The letter at
    alphabetic position [phase] is shifted by keyword letter
    [phase mod keywordLength]; a digit passes through and does not advance
    the phase; [Decrypt] subtracts. *)
Fixpoint vigenereFrom (keyword : text) (mode : CipherMode) (phase : nat)
    (t : text) : text :=
  match t with
  | [] => []
  | c :: t' =>
      if isupper c then
        shiftLetter mode
          (letterIndex (nth (phase mod length keyword)%nat keyword "A"%char)) c
          :: vigenereFrom keyword mode (S phase) t'
      else c :: vigenereFrom keyword mode phase t'
  end.

(** [applyCipher(text, mode)] has no phase argument: every call starts the
    keyword cycle at phase 0. *)
Definition vigenereApply (keyword : text) (mode : CipherMode) (t : text) : text :=
  vigenereFrom keyword mode 0 t.

(** *** Playfair *)

(** [J] is folded into [I]. *)
Definition foldJ (c : ascii) : ascii :=
  if Ascii.eqb c "J" then "I"%char else c.

Definition alphabet25 : text := str "ABCDEFGHIKLMNOPQRSTUVWXYZ".

Definition member (c : ascii) (l : text) : bool := existsb (Ascii.eqb c) l.

(** Keep the first occurrence of every letter. *)
Fixpoint dedupFrom (seen : text) (l : text) : text :=
  match l with
  | [] => []
  | c :: l' =>
      if member c seen then dedupFrom seen l'
      else c :: dedupFrom (c :: seen) l'
  end.

(** Modelled from the spec: sections 3 and 4.2, the 5x5 key square is built
    from the keyword with letters deduplicated and [J] folded into [I]; the
    letters the keyword does not use fill the rest of the square in
    alphabetical order.  The square is stored row by row. *)
Definition keySquare (key : text) : text :=
  dedupFrom [] (map (fun c => foldJ (toupper c)) key ++ alphabet25).

Fixpoint indexOf (c : ascii) (square : text) : nat :=
  match square with
  | [] => 0%nat
  | x :: square' => if Ascii.eqb x c then 0%nat else S (indexOf c square')
  end.

Definition squareAt (square : text) (row col : nat) : ascii :=
  nth (5 * row + col)%nat square "A"%char.

(** One step along a row or a column: right/down to encrypt, left/up to
    decrypt, wrapping round the square. *)
Definition step5 (mode : CipherMode) (x : nat) : nat :=
  match mode with
  | Encrypt => ((x + 1) mod 5)%nat
  | Decrypt => ((x + 4) mod 5)%nat
  end.

(** Modelled from the spec: section 4.3, the key-square rules.  Same row:
    shift by column; same column: shift by row; otherwise swap the corners
    of the rectangle. *)
Definition playfairDigraph (square : text) (mode : CipherMode)
    (a b : ascii) : ascii * ascii :=
  let pa := indexOf a square in
  let pb := indexOf b square in
  let ra := (pa / 5)%nat in let ca := (pa mod 5)%nat in
  let rb := (pb / 5)%nat in let cb := (pb mod 5)%nat in
  if (ra =? rb)%nat then
    (squareAt square ra (step5 mode ca), squareAt square rb (step5 mode cb))
  else if (ca =? cb)%nat then
    (squareAt square (step5 mode ra) ca, squareAt square (step5 mode rb) cb)
  else
    (squareAt square ra cb, squareAt square rb ca).

(** The same rules on positions [0 .. 24] of the square, read row by row. *)
Definition digraphPositions (mode : CipherMode) (pa pb : nat) : nat * nat :=
  let ra := (pa / 5)%nat in let ca := (pa mod 5)%nat in
  let rb := (pb / 5)%nat in let cb := (pb mod 5)%nat in
  if (ra =? rb)%nat then
    ((5 * ra + step5 mode ca)%nat, (5 * rb + step5 mode cb)%nat)
  else if (ca =? cb)%nat then
    ((5 * step5 mode ra + ca)%nat, (5 * step5 mode rb + cb)%nat)
  else
    ((5 * ra + cb)%nat, (5 * rb + ca)%nat).

(** A key square: 25 places that hold every letter but [J]. *)
Definition validSquare (square : text) : bool :=
  Nat.eqb (length square) 25 && forallb (fun c => member c square) alphabet25.

(** The padding letter that follows [a]: [X], or [Q] after an [X]. *)
Definition padFor (a : ascii) : ascii :=
  if Ascii.eqb a "X" then "Q"%char else "X"%char.

(** Modelled from the spec: section 4.3, pair formation.  Letters are
    scanned in order with [J] folded into [I], as in the key square; [pend]
    is the first letter of a pair that still waits for its partner.  When
    the partner is the same letter a padding letter is inserted between the
    two and the second letter opens the next pair; a letter left unpaired at
    the end gets its padding letter appended.  Digits stay where they are
    and take no part in the pairing. *)
Fixpoint playfairPairs (pend : option ascii) (t : text) : text :=
  match t with
  | [] => match pend with Some a => [padFor a] | None => [] end
  | c :: t' =>
      if isupper c then
        let c' := foldJ c in
        match pend with
        | None => c' :: playfairPairs (Some c') t'
        | Some a =>
            if Ascii.eqb a c'
            then padFor a :: c' :: playfairPairs (Some c') t'
            else c' :: playfairPairs None t'
        end
      else c :: playfairPairs pend t'
  end.

(** The letters of a text, in order. *)
Definition letters (t : text) : text := List.filter isupper t.

(** Letters that pair up as they stand: an even number of letters of the
    square, the two letters of each pair different. *)
Fixpoint wellPaired (l : text) : bool :=
  match l with
  | [] => true
  | a :: b :: l' =>
      negb (Ascii.eqb a b) && member a alphabet25 && member b alphabet25
      && wellPaired l'
  | _ => false
  end.

(** Transform a sequence of letters two at a time. *)
Fixpoint mapDigraphs (f : ascii -> ascii -> ascii * ascii) (l : text) : text :=
  match l with
  | a :: b :: l' => fst (f a b) :: snd (f a b) :: mapDigraphs f l'
  | _ => l
  end.

(** Put letters [ls] back at the letter positions of [t]. *)
Fixpoint refill (t : text) (ls : text) : text :=
  match t with
  | [] => []
  | c :: t' =>
      if isupper c then
        match ls with
        | x :: ls' => x :: refill t' ls'
        | [] => c :: refill t' []
        end
      else c :: refill t' ls
  end.

Definition playfairApply (square : text) (mode : CipherMode) (t : text) : text :=
  let paired := playfairPairs None t in
  refill paired (mapDigraphs (playfairDigraph square mode) (letters paired)).

(** *** The cipher interface and the factory *)

(** A constructed cipher: immutable, one of three variants. *)
Inductive Cipher :=
| CaesarCipher (shift : N)
| PlayfairCipher (square : text)
| VigenereCipher (keyword : text).

(** [cipher->applyCipher(inputText, cipherMode)]. *)
Definition applyCipher (cipher : Cipher) (inputText : text) (mode : CipherMode)
  : text :=
  match cipher with
  | CaesarCipher shift => caesarApply shift mode inputText
  | PlayfairCipher square => playfairApply square mode inputText
  | VigenereCipher keyword => vigenereApply keyword mode inputText
  end.

Definition alphabeticKey (key : text) : bool :=
  negb (Nat.eqb (length key) 0) && forallb isalpha key.

(** Modelled from the spec: [cipherFactory] is declared in
    [CipherFactory.hpp]; its definition is not in [mpags-cipher.cpp].
    Section 4.2: Caesar takes a key reducible to a shift in [0, 25];
    Vigenere and Playfair take a non-empty alphabetic keyword (taken in
    upper case); anything else is a construction error, the null pointer
    that [main] tests with [!cipher]. *)
Definition cipherFactory (type : CipherType) (key : text) : option Cipher :=
  match type with
  | Caesar =>
      match caesarKey key with
      | Some shift => Some (CaesarCipher shift)
      | None => None
      end
  | Playfair =>
      if alphabeticKey key then Some (PlayfairCipher (keySquare key)) else None
  | Vigenere =>
      if alphabeticKey key then Some (VigenereCipher (map toupper key)) else None
  end.

(* ================================================================= *)
(** ** Splitting the input into chunks (main, lines 106-119) *)

(** [size_t j = 4; // hardcoded for now] *)
Definition j_main : N := 4.

(** The body of the [for] loop up to the construction of the lambda: the
    chunk handed to thread [iThr] when [j] threads are used ([j >= 1]: the
    source divides by [j]).  [j - 1] is [wrap (j + 2^64 - 1)]. *)
Definition inTextChunk (inputText : text) (j iThr : N) : option text :=
  let substrLen := size inputText / j in
  if negb (iThr =? wrap (j + SIZE_MAX1 - 1))
  then substr inputText (wrap (iThr * substrLen)) substrLen
  else substr inputText (wrap (iThr * substrLen))
                        (wrap (substrLen + size inputText mod j)).

(** [for (std::size_t iThr = 0; iThr < j; iThr++)]: [n] is the number of
    iterations still to run, [iThr] the loop counter.  An exception thrown
    by [substr] leaves the loop (and the program).  The threads started in
    the loop are those of [launch] below: the main thread does not look at
    a future before the loop is over. *)
Fixpoint chunkLoop (inputText : text) (j : N) (n : nat) (iThr : N)
  : option (list text) :=
  match n with
  | O => Some []
  | S n' =>
      match inTextChunk inputText j iThr with
      | None => None
      | Some c =>
          match chunkLoop inputText j n' (wrap (iThr + 1)) with
          | None => None
          | Some cs => Some (c :: cs)
          end
      end
  end.

Definition chunks (inputText : text) (j : N) : option (list text) :=
  chunkLoop inputText j (N.to_nat j) 0.


(* ================================================================= *)
(** ** The worker threads (main, lines 108-149) *)

(** A [std::future<std::string>] of an asynchronous task that applies the
    cipher to its own copy of a chunk: either the thread is still running,
    or the result is there. *)
Inductive future :=
| Running (inTextChunk : text)
| Ready (outTextChunk : text).

(** Where the main thread is:
    - [Waiting wait i]: in the [while (wait)] loop, about to call
      [wait_for] on future [i] of the [for] loop, with the flag [wait];
    - [Collecting i outputText]: in the final [for] loop, about to call
      [get] on future [i];
    - [Joined outputText]: past both loops. *)
Inductive mainThread :=
| Waiting (wait : bool) (i : nat)
| Collecting (i : nat) (outputText : text)
| Joined (outputText : text).

Record threads := Threads { futures : list future; mainAt : mainThread }.

(** The scheduler runs either worker [iThr] to completion or the main thread
    for one step. *)
Inductive pick := Worker (iThr : nat) | Main.

(** The lambda [applyCiphOnThr] run by worker [iThr]. *)
Definition workerStep (cipher : Cipher) (mode : CipherMode) (iThr : nat)
    (fs : list future) : list future :=
  match fs !! iThr with
  | Some (Running inTextChunk) =>
      <[iThr := Ready (applyCipher cipher inTextChunk mode)]> fs
  | _ => fs
  end.

(** Leaving the [for] loop of the polling loop, by [break] or at its end:
    [while (wait)] either starts the [for] loop again or is done. *)
Definition afterPoll (wait : bool) : mainThread :=
  if wait then Waiting true 0 else Collecting 0 [].

(** One step of the main thread.  [wait_for] on a running future times out
    and the loop breaks; [get] on a running future blocks. *)
Definition mainStep (fs : list future) (m : mainThread) : mainThread :=
  match m with
  | Waiting wait i =>
      match fs !! i with
      | None => afterPoll wait
      | Some (Running _) => afterPoll wait
      | Some (Ready _) => Waiting false (S i)
      end
  | Collecting i outputText =>
      match fs !! i with
      | None => Joined outputText
      | Some (Running _) => Collecting i outputText
      | Some (Ready outTextChunk) => Collecting (S i) (outputText ++ outTextChunk)
      end
  | Joined outputText => Joined outputText
  end.

Definition step (cipher : Cipher) (mode : CipherMode) (s : threads) (p : pick)
  : threads :=
  match p with
  | Worker iThr => Threads (workerStep cipher mode iThr (futures s)) (mainAt s)
  | Main => Threads (futures s) (mainStep (futures s) (mainAt s))
  end.

(** The state after the launching loop: one running future per chunk, the
    main thread in front of the polling loop with [wait = true]. *)
Definition launch (chunkList : list text) : threads :=
  Threads (map Running chunkList) (Waiting true 0).

Definition run (cipher : Cipher) (mode : CipherMode) (schedule : list pick)
    (s : threads) : threads :=
  fold_left (step cipher mode) schedule s.

(** What a single call on the whole text returns, and what the chunks
    give when each is processed on its own and the results are put together
    in index order. *)
Definition sequentialApply (cipher : Cipher) (mode : CipherMode) (t : text) : text :=
  applyCipher cipher t mode.

Definition joinChunks (cipher : Cipher) (mode : CipherMode)
    (chunkList : list text) : text :=
  concat (map (fun c => applyCipher cipher c mode) chunkList).

(** The applier with [j] workers under a schedule: [None] when [substr]
    throws, [Some None] when the schedule ends before the main thread is
    past the loops, [Some (Some outputText)] otherwise. *)
Definition chunkedApply (cipher : Cipher) (mode : CipherMode) (j : N)
    (schedule : list pick) (inputText : text) : option (option text) :=
  match chunks inputText j with
  | None => None
  | Some chunkList =>
      match mainAt (run cipher mode schedule (launch chunkList)) with
      | Joined outputText => Some (Some outputText)
      | _ => Some None
      end
  end.

(** A schedule that lets every worker finish and then the main thread run:
    workers [0 .. j-1] in turn, then [2 j + 2] steps of the main thread
    ([j] calls of [wait_for], the exit of the polling loop, [j] calls of
    [get], the exit of the collecting loop). *)
Definition roundRobin (j : nat) : list pick :=
  map Worker (seq 0 j) ++ repeat Main (2 * j + 2).

(* ================================================================= *)
(** ** The program (main) *)

(** [ProgramSettings], in the order of the initialiser of line 21. *)
Record ProgramSettings := {
  helpRequested : bool;
  versionRequested : bool;
  inputFile : text;
  outputFile : text;
  cipherKey : text;
  cipherMode : CipherMode;
  cipherType : CipherType
}.

(** What the streams do: whether the input (output) file opens, and the
    characters the input stream delivers. *)
Record Streams := {
  inputGood : bool;
  inputStream : text;
  outputGood : bool
}.

(** How a run of [main] ends, after a successful [processCommandLine]. *)
Inductive Outcome :=
| Help                      (* usage printed, [return 0] *)
| Version                   (* version printed, [return 0] *)
| InputError                (* "failed to create istream", [return 1] *)
| ConstructionError         (* "problem constructing requested cipher", [return 1] *)
| OutOfRange                (* [std::out_of_range] escapes [main] *)
| Unfinished                (* the schedule ended with [main] still in the loops *)
| OutputError               (* "failed to create ostream", [return 1] *)
| Written (outputText : text).  (* [outputText] written, [return 0] *)

Definition isEmpty (s : text) : bool := Nat.eqb (length s) 0.

Definition main (settings : ProgramSettings) (io : Streams)
    (schedule : list pick) : Outcome :=
  if helpRequested settings then Help
  else if versionRequested settings then Version
  else if negb (isEmpty (inputFile settings)) && negb (inputGood io)
  then InputError
  else
    let inputText := readLoop (inputStream io) [] in
    match cipherFactory (cipherType settings) (cipherKey settings) with
    | None => ConstructionError
    | Some cipher =>
        match chunkedApply cipher (cipherMode settings) j_main schedule inputText with
        | None => OutOfRange
        | Some None => Unfinished
        | Some (Some outputText) =>
            if negb (isEmpty (outputFile settings)) && negb (outputGood io)
            then OutputError
            else Written outputText
        end
    end.

(** The value returned by [main]; none when an exception escapes or the
    run is not over. *)
Definition exitCode (o : Outcome) : option N :=
  match o with
  | Help | Version | Written _ => Some 0
  | InputError | ConstructionError | OutputError => Some 1
  | OutOfRange | Unfinished => None
  end.

(** The text the program writes to its output, when it does. *)
Definition outputOf (o : Outcome) : option text :=
  match o with
  | Written outputText => Some outputText
  | _ => None
  end.

(** Whether a run of [main] came to an end under its schedule. *)
Definition finished (o : Outcome) : bool :=
  match o with
  | Unfinished => false
  | _ => true
  end.

(* ================================================================= *)
(** ** Sample runs *)

(** The settings of [mpags-cipher -c caesar -k 3 --encrypt] with the text
    on standard input and the result on standard output. *)
Definition caesar3 : ProgramSettings := {|
  helpRequested := false;
  versionRequested := false;
  inputFile := [];
  outputFile := [];
  cipherKey := str "3";
  cipherMode := Encrypt;
  cipherType := Caesar
|}.

Definition attackAtDawn : Streams := {|
  inputGood := true;
  inputStream := str "Attack at Dawn!";
  outputGood := true
|}.

(** [mpags-cipher -c playfair] with no key. *)
Definition playfairNoKey : ProgramSettings := {|
  helpRequested := false;
  versionRequested := false;
  inputFile := [];
  outputFile := [];
  cipherKey := [];
  cipherMode := Encrypt;
  cipherType := Playfair
|}.

(** [mpags-cipher -c vigenere -k AB] and [mpags-cipher -c playfair -k PLAYFAIR]. *)
Definition vigenereAB : ProgramSettings := {|
  helpRequested := false;
  versionRequested := false;
  inputFile := [];
  outputFile := [];
  cipherKey := str "AB";
  cipherMode := Encrypt;
  cipherType := Vigenere
|}.

Definition playfairPLAYFAIR : ProgramSettings := {|
  helpRequested := false;
  versionRequested := false;
  inputFile := [];
  outputFile := [];
  cipherKey := str "PLAYFAIR";
  cipherMode := Encrypt;
  cipherType := Playfair
|}.

Definition stdin (s : string) : Streams := {|
  inputGood := true;
  inputStream := str s;
  outputGood := true
|}.

(** A schedule in which the workers complete in the order 2, 0, 3, 1 with
    the main thread polling in between. *)
Definition outOfOrder : list pick :=
  [Worker 2; Main; Worker 0; Main; Main; Worker 3; Main; Worker 1]
  ++ repeat Main 12.

(* ================================================================= *)
(** ** Definitions used in the proofs *)

(** A property checked on each of the 256 characters. *)
Definition allAscii (p : ascii -> bool) : bool :=
  List.forallb (fun n => p (ascii_of_nat n)) (seq 0 256).

(** Each pair of distinct positions of the square goes to a pair of distinct
    positions, and decrypting brings it back. *)
Definition digraphPositionsInvertible : bool :=
  forallb (fun pa =>
    forallb (fun pb =>
      Nat.eqb pa pb ||
      let '(x, y) := digraphPositions Encrypt pa pb in
      Nat.ltb x 25 && Nat.ltb y 25 && negb (Nat.eqb x y) &&
      let '(pa', pb') := digraphPositions Decrypt x y in
      Nat.eqb pa' pa && Nat.eqb pb' pb)
      (seq 0 25))
    (seq 0 25).

(** The number of steps the main thread still needs once all [n] futures
    are ready. *)
Definition stepsLeft (n : nat) (m : mainThread) : nat :=
  match m with
  | Waiting _ i => ((n - i) + 1 + (n + 1))%nat
  | Collecting i _ => ((n - i) + 1)%nat
  | Joined _ => 0%nat
  end.

(** Future [i] belongs to chunk [i]: it is the running task on that chunk
    or holds the cipher applied to it. *)
Definition futureOf (cipher : Cipher) (mode : CipherMode)
    (c : text) (f : future) : Prop :=
  f = Running c \/ f = Ready (applyCipher cipher c mode).

(** The flag [wait] is still set only at the start of the polling loop; the
    futures the main thread has got past are ready, and [outputText] holds
    their results in index order. *)
Definition threadsInv (cipher : Cipher) (mode : CipherMode)
    (chunkList : list text) (s : threads) : Prop :=
  Forall2 (futureOf cipher mode) chunkList (futures s) /\
  match mainAt s with
  | Waiting wait i => wait = true -> i = 0%nat
  | Collecting i outputText =>
      take i (futures s)
        = map (fun c => Ready (applyCipher cipher c mode)) (take i chunkList) /\
      outputText = joinChunks cipher mode (take i chunkList)
  | Joined outputText =>
      futures s = map (fun c => Ready (applyCipher cipher c mode)) chunkList /\
      outputText = joinChunks cipher mode chunkList
  end.


(* ================================================================= *)
(** ** More on the loops and the exits of [main] *)

(** Whether the polling loop has cleared its flag: the main thread is in the
    [for] loop with [wait == false], or past the [while]. *)
Definition waitCleared (m : mainThread) : bool :=
  match m with
  | Waiting true _ => false
  | _ => true
  end.

(** Lines 72-79 and 154-161: the stream is standard input (output) when no
    file is named, and otherwise the file, which has to open. *)
Definition inputOpens (settings : ProgramSettings) (io : Streams) : bool :=
  isEmpty (inputFile settings) || inputGood io.

Definition outputOpens (settings : ProgramSettings) (io : Streams) : bool :=
  isEmpty (outputFile settings) || outputGood io.

(** Lines 95-98: whether [cipher] is non-null. *)
Definition constructs (settings : ProgramSettings) : bool :=
  match cipherFactory (cipherType settings) (cipherKey settings) with
  | Some _ => true
  | None => false
  end.

(** Worker 0 completes, then the main thread polls twice. *)
Definition firstOnly : list pick := [Worker 0; Main; Main].

(** Once [wait] is cleared, future 0 holds the result on chunk 0. *)
Definition firstReadyInv (cipher : Cipher) (mode : CipherMode)
    (chunkList : list text) (s : threads) : Prop :=
  waitCleared (mainAt s) = true ->
  exists c0,
    chunkList !! 0%nat = Some c0 /\
    futures s !! 0%nat = Some (Ready (applyCipher cipher c0 mode)).

(* ================================================================= *)
(** * Properties *)

(** ** The split into chunks *)

Lemma to_nat_mul (i : nat) (s : N) :
  N.to_nat (N.of_nat i * s) = (i * N.to_nat s)%nat.
Proof. by rewrite N2Nat.inj_mul, Nat2N.id. Qed.

Section Chunking.

Variable inputText : text.
Variable j : N.
Hypothesis j_pos : 1 <= j.
Hypothesis j_fits : j < SIZE_MAX1.
Hypothesis size_fits : size inputText < SIZE_MAX1.

Let substrLen : N := size inputText / j.

(** Chunk [i] as a slice of the input. *)
Let slice (i : nat) : text :=
  take (N.to_nat substrLen) (drop (i * N.to_nat substrLen) inputText).
Let rest (i : nat) : text := drop (i * N.to_nat substrLen) inputText.

Lemma substrLen_bound iThr :
  iThr < j -> iThr * substrLen + substrLen <= size inputText.
Proof using All.
  intros Hi. subst substrLen.
  assert (j * (size inputText / j) <= size inputText)
    by (apply N.Div0.mul_div_le).
  nia.
Qed.

Lemma wrap_pred_j : wrap (j + SIZE_MAX1 - 1) = j - 1.
Proof using All.
  unfold wrap.
  replace (j + SIZE_MAX1 - 1) with (j - 1 + 1 * SIZE_MAX1) by lia.
  rewrite N.Div0.mod_add, N.mod_small; lia.
Qed.

Lemma start_offset_in_range iThr :
  iThr < j ->
  wrap (iThr * substrLen) = iThr * substrLen /\
  iThr * substrLen <= size inputText.
Proof using All.
  intros Hi. pose proof (substrLen_bound iThr Hi).
  unfold wrap. rewrite N.mod_small; lia.
Qed.

Lemma inTextChunk_inner (i : nat) :
  N.of_nat i < j - 1 ->
  inTextChunk inputText j (N.of_nat i) = Some (slice i).
Proof using All.
  intros Hi. unfold inTextChunk, substr. fold substrLen.
  destruct (start_offset_in_range (N.of_nat i) ltac:(lia)) as [-> Hb].
  rewrite wrap_pred_j.
  destruct (N.eqb_spec (N.of_nat i) (j - 1)); [lia|]. simpl.
  destruct (N.ltb_spec (size inputText) (N.of_nat i * substrLen)); [lia|].
  unfold slice. by rewrite to_nat_mul.
Qed.

Lemma inTextChunk_final (i : nat) :
  N.of_nat i = j - 1 ->
  inTextChunk inputText j (N.of_nat i) = Some (rest i).
Proof using All.
  intros Hi. unfold inTextChunk, substr. fold substrLen.
  destruct (start_offset_in_range (N.of_nat i) ltac:(lia)) as [-> Hb].
  rewrite wrap_pred_j, Hi, N.eqb_refl. simpl.
  assert (Hdm : size inputText = j * substrLen + size inputText mod j)
    by (subst substrLen; apply N.Div0.div_mod).
  assert (size inputText mod j < j) by (apply N.mod_lt; lia).
  unfold wrap. rewrite (N.mod_small (substrLen + _)) by nia.
  destruct (N.ltb_spec (size inputText) ((j - 1) * substrLen)); [lia|].
  unfold rest. f_equal.
  rewrite <- Hi, to_nat_mul.
  apply take_ge. rewrite length_drop. unfold size in *. nia.
Qed.

(** The loop, started at [i] with [n + 1] iterations to go, produces the
    slices [i .. i + n - 1] and then the rest of the text. *)
Lemma chunkLoop_slices n : forall i : nat,
  (i + S n = N.to_nat j)%nat ->
  chunkLoop inputText j (S n) (N.of_nat i)
  = Some (map slice (seq i n) ++ [rest (i + n)]).
Proof using All.
  induction n as [|n IH]; intros i Hi.
  - simpl. rewrite inTextChunk_final by lia.
    by rewrite Nat.add_0_r.
  - change (chunkLoop inputText j (S (S n)) (N.of_nat i)) with
      (match inTextChunk inputText j (N.of_nat i) with
       | None => None
       | Some c =>
           match chunkLoop inputText j (S n) (wrap (N.of_nat i + 1)) with
           | None => None
           | Some cs => Some (c :: cs)
           end
       end).
    rewrite inTextChunk_inner by lia.
    replace (wrap (N.of_nat i + 1)) with (N.of_nat (S i))
      by (unfold wrap; rewrite N.mod_small; lia).
    rewrite IH by lia. simpl.
    by replace (i + S n)%nat with (S (i + n)) by lia.
Qed.

Lemma chunks_slices :
  chunks inputText j
  = Some (map slice (seq 0 (N.to_nat j - 1)) ++ [rest (N.to_nat j - 1)]).
Proof using All.
  unfold chunks.
  replace (N.to_nat j) with (S (N.to_nat j - 1)) at 1 by lia.
  apply (chunkLoop_slices (N.to_nat j - 1) 0). lia.
Qed.

Lemma concat_slices n : forall i : nat,
  concat (map slice (seq i n) ++ [rest (i + n)]) = rest i.
Proof using All.
  induction n as [|n IH]; intros i; simpl.
  - by rewrite app_nil_r, Nat.add_0_r.
  - replace (i + S n)%nat with (S i + n)%nat by lia. rewrite IH.
    unfold slice, rest.
    rewrite <- (take_drop (N.to_nat substrLen)
                  (drop (i * N.to_nat substrLen) inputText)) at 2.
    rewrite drop_drop. do 2 f_equal. lia.
Qed.

Lemma chunks_concat chunkList :
  chunks inputText j = Some chunkList -> concat chunkList = inputText.
Proof using All.
  rewrite chunks_slices. intros [= <-].
  pose proof (concat_slices (N.to_nat j - 1) 0) as Hc. simpl in Hc.
  rewrite Hc. unfold rest. by rewrite drop_0.
Qed.

Lemma size_slice (i : nat) :
  N.of_nat i < j - 1 -> size (slice i) = substrLen.
Proof using All.
  intros Hi. pose proof (substrLen_bound (N.of_nat i) ltac:(lia)).
  unfold slice, size in *. rewrite length_take, length_drop.
  clearbody substrLen. clear - H. lia.
Qed.

Lemma size_rest_final :
  size (rest (N.to_nat j - 1)) = substrLen + size inputText mod j.
Proof using All.
  assert (Hdm : size inputText = j * substrLen + size inputText mod j)
    by (subst substrLen; apply N.Div0.div_mod).
  unfold rest, size in *. rewrite length_drop.
  set (r := N.of_nat (length inputText) mod j) in *.
  clearbody substrLen r. clear - Hdm j_pos. nia.
Qed.

(** C3.  For every input text and every worker count [j >= 1], the loop
    of lines 111-119 yields [j] contiguous slices: each of the first
    [j - 1] has length [floor(size / j)], the final one has that length
    plus the remainder [size mod j], and the slices concatenated in
    ascending index order are the input text, no character lost or
    duplicated. *)
Theorem chunks_partition :
  exists chunkList final,
    chunks inputText j = Some chunkList /\
    length chunkList = N.to_nat j /\
    (forall i c, (i < N.to_nat j - 1)%nat -> chunkList !! i = Some c ->
                 size c = size inputText / j) /\
    last chunkList = Some final /\
    size final = size inputText / j + size inputText mod j /\
    concat chunkList = inputText.
Proof using All.
  exists (map slice (seq 0 (N.to_nat j - 1)) ++ [rest (N.to_nat j - 1)]),
         (rest (N.to_nat j - 1)).
  split; [apply chunks_slices|].
  split; [rewrite length_app, length_map, length_seq; simpl; lia|].
  split.
  { intros i c Hi Hc.
    rewrite lookup_app_l in Hc by (rewrite length_map, length_seq; lia).
    rewrite list_lookup_fmap, lookup_seq_lt in Hc by lia.
    simpl in Hc. inversion Hc; subst c. apply size_slice. lia. }
  split; [apply last_snoc|].
  split; [apply size_rest_final|].
  apply chunks_concat, chunks_slices.
Qed.

End Chunking.

Lemma chunks_partition_witness :
  exists chunkList final,
    chunks (str "ATTACKATDAWN1") 4 = Some chunkList /\
    length chunkList = N.to_nat 4 /\
    (forall i c, (i < N.to_nat 4 - 1)%nat -> chunkList !! i = Some c ->
                 size c = size (str "ATTACKATDAWN1") / 4) /\
    last chunkList = Some final /\
    size final = size (str "ATTACKATDAWN1") / 4 + size (str "ATTACKATDAWN1") mod 4 /\
    concat chunkList = str "ATTACKATDAWN1".
Proof.
  apply (chunks_partition (str "ATTACKATDAWN1") 4); [lia | reflexivity | reflexivity].
Defined.

(** With the four workers of [main] and a text shorter than four
    characters, [substrLen] is 0. *)
Lemma chunks_short inputText :
  size inputText < j_main ->
  chunks inputText j_main = Some [[]; []; []; inputText].
Proof.
  intros Hs.
  assert (Hfit : size inputText < SIZE_MAX1)
    by (apply (N.lt_trans _ _ _ Hs); reflexivity).
  assert (Hj1 : 1 <= j_main) by (unfold j_main; lia).
  rewrite (chunks_slices inputText j_main Hj1 eq_refl Hfit).
  rewrite (N.div_small _ _ Hs). reflexivity.
Qed.

(** C10.  Chunk extraction is total and safe for every input length with
    the four workers of [main]: every start offset
    [iThr * floor(size / 4)] is at most the size of the text, so that no
    [substr] is out of range and all four chunks are produced; when the
    text is shorter than four characters the first three chunks are empty
    and the final chunk is the entire input. *)
Theorem chunk_extraction_in_range (inputText : text) :
  size inputText < SIZE_MAX1 ->
  (forall iThr, iThr < j_main ->
     wrap (iThr * (size inputText / j_main)) <= size inputText /\
     exists c, inTextChunk inputText j_main iThr = Some c) /\
  (exists c0 c1 c2 c3, chunks inputText j_main = Some [c0; c1; c2; c3]) /\
  (size inputText < j_main ->
     chunks inputText j_main = Some [[]; []; []; inputText]).
Proof.
  intros Hfit.
  assert (Hj1 : 1 <= j_main) by (unfold j_main; lia).
  assert (Hj2 : j_main < SIZE_MAX1) by reflexivity.
  split; [|split].
  - intros iThr Hi.
    destruct (start_offset_in_range inputText j_main Hj1 Hj2 Hfit iThr Hi)
      as [Hw Hb].
    split; [rewrite Hw; exact Hb|].
    rewrite <- (N2Nat.id iThr).
    destruct (N.eq_dec iThr (j_main - 1)) as [He|Hne].
    + eexists. apply (inTextChunk_final inputText j_main Hj1 Hj2 Hfit). lia.
    + eexists. apply (inTextChunk_inner inputText j_main Hj1 Hj2 Hfit). lia.
  - rewrite (chunks_slices inputText j_main Hj1 Hj2 Hfit). simpl.
    by repeat eexists.
  - apply chunks_short.
Qed.

Lemma chunk_extraction_in_range_witness :
  (forall iThr, iThr < j_main ->
     wrap (iThr * (size (str "AB") / j_main)) <= size (str "AB") /\
     exists c, inTextChunk (str "AB") j_main iThr = Some c) /\
  (exists c0 c1 c2 c3, chunks (str "AB") j_main = Some [c0; c1; c2; c3]) /\
  (size (str "AB") < j_main ->
     chunks (str "AB") j_main = Some [[]; []; []; str "AB"]).
Proof.
  apply (chunk_extraction_in_range (str "AB")). reflexivity.
Defined.

(* ================================================================= *)
(** ** The worker threads: every schedule gives the same text *)

Section Threads.

Variable cipher : Cipher.
Variable mode : CipherMode.
Variable chunkList : list text.

Let result (c : text) : future := Ready (applyCipher cipher c mode).

Lemma futureOf_ready c r :
  futureOf cipher mode c (Ready r) -> r = applyCipher cipher c mode.
Proof. intros [H|H]; congruence. Qed.

Lemma futureOf_running c c' :
  futureOf cipher mode c (Running c') -> c' = c.
Proof. intros [H|H]; congruence. Qed.

Lemma launch_inv : threadsInv cipher mode chunkList (launch chunkList).
Proof.
  split; [|done]. simpl.
  apply Forall2_fmap_r, Forall_Forall2_diag, Forall_forall.
  intros c _. by left.
Qed.

Lemma workerStep_futureOf iThr fs :
  Forall2 (futureOf cipher mode) chunkList fs ->
  Forall2 (futureOf cipher mode) chunkList (workerStep cipher mode iThr fs).
Proof.
  intros Hfs. unfold workerStep.
  destruct (fs !! iThr) as [[c|r]|] eqn:Hf; try done.
  destruct (Forall2_lookup_r _ _ _ _ _ Hfs Hf) as (c' & Hc & Hrel).
  apply futureOf_running in Hrel; subst c'.
  rewrite <- (list_insert_id chunkList iThr c Hc).
  apply Forall2_insert; [done|]. by right.
Qed.

(** A worker only ever touches a running future: the ready prefix the main
    thread has collected stays as it is. *)
Lemma workerStep_take iThr fs i :
  take i fs = map result (take i chunkList) ->
  take i (workerStep cipher mode iThr fs) = take i fs.
Proof.
  intros Hpre. unfold workerStep.
  destruct (fs !! iThr) as [[c|r]|] eqn:Hf; try done.
  destruct (decide (i <= iThr)%nat) as [Hle|Hgt].
  - by apply take_insert_ge.
  - assert (Hlt : (iThr < i)%nat) by lia.
    pose proof (lookup_take_lt fs i iThr Hlt) as Hl.
    rewrite Hpre, Hf, list_lookup_fmap in Hl.
    destruct (take i chunkList !! iThr); discriminate.
Qed.

Lemma step_inv s p :
  threadsInv cipher mode chunkList s ->
  threadsInv cipher mode chunkList (step cipher mode s p).
Proof.
  destruct s as [fs m]. intros [Hfs Hm]. simpl in *.
  destruct p as [iThr|]; simpl.
  - split; [by apply workerStep_futureOf|].
    destruct m as [w i|i out|out]; simpl in *; [done| |].
    + destruct Hm as [Hpre ->]. split; [|done].
      by rewrite workerStep_take.
    + destruct Hm as [Hall ->]. split; [|done].
      unfold workerStep. rewrite Hall, list_lookup_fmap.
      by destruct (chunkList !! iThr).
  - split; [done|].
    destruct m as [w i|i out|out]; simpl in *.
    + destruct (fs !! i) as [[c|r]|]; [| done |];
        destruct w; simpl; done.
    + destruct Hm as [Hpre ->].
      destruct (fs !! i) as [[c|r]|] eqn:Hf; simpl.
      * done.
      * destruct (Forall2_lookup_r _ _ _ _ _ Hfs Hf) as (c & Hc & Hrel).
        apply futureOf_ready in Hrel; subst r.
        rewrite (take_S_r _ _ _ Hf), (take_S_r _ _ _ Hc), Hpre.
        unfold joinChunks. rewrite !map_app, concat_app. simpl.
        by rewrite app_nil_r.
      * apply lookup_ge_None in Hf.
        pose proof (Forall2_length _ _ _ Hfs) as Hlen.
        rewrite take_ge in Hpre by done.
        rewrite (take_ge chunkList) in Hpre |- * by lia. done.
    + done.
Qed.

Lemma run_inv schedule : forall s,
  threadsInv cipher mode chunkList s ->
  threadsInv cipher mode chunkList (run cipher mode schedule s).
Proof.
  induction schedule as [|p schedule IH]; intros s Hs; [done|].
  apply IH, step_inv, Hs.
Qed.

(** C4.  Under every schedule of the workers and the main thread, once the
    main thread is past its two loops every one of the futures holds its
    worker's result, and [outputText] is the concatenation of the workers'
    outputs in ascending slice index order, whatever the order in which the
    workers completed. *)
Theorem joined_in_slice_order schedule outputText :
  mainAt (run cipher mode schedule (launch chunkList)) = Joined outputText ->
  futures (run cipher mode schedule (launch chunkList))
    = map (fun c => Ready (applyCipher cipher c mode)) chunkList /\
  outputText = joinChunks cipher mode chunkList.
Proof.
  intros Hj.
  destruct (run_inv schedule _ launch_inv) as [_ Hm].
  rewrite Hj in Hm. exact Hm.
Qed.

(** *** Every run can be completed *)

Lemma run_app schedule1 schedule2 s :
  run cipher mode (schedule1 ++ schedule2) s
  = run cipher mode schedule2 (run cipher mode schedule1 s).
Proof. unfold run. apply fold_left_app. Qed.

(** Letting workers [k .. k + n - 1] run leaves every future ready. *)
Lemma workers_finish n : forall k fs m,
  Forall2 (futureOf cipher mode) chunkList fs ->
  (k + n = length chunkList)%nat ->
  take k fs = map result (take k chunkList) ->
  run cipher mode (map Worker (seq k n)) (Threads fs m)
  = Threads (map result chunkList) m.
Proof.
  induction n as [|n IH]; intros k fs m Hfs Hk Hpre.
  - simpl. pose proof (Forall2_length _ _ _ Hfs) as Hlen.
    rewrite !take_ge in Hpre by lia. by rewrite Hpre.
  - simpl. apply IH; [by apply workerStep_futureOf | lia |].
    pose proof (Forall2_length _ _ _ Hfs) as Hlen.
    destruct (lookup_lt_is_Some_2 chunkList k ltac:(lia)) as [c Hc].
    destruct (Forall2_lookup_l _ _ _ _ _ Hfs Hc) as (f & Hf & Hrel).
    rewrite (take_S_r _ _ _ Hc), map_app. simpl.
    unfold workerStep. rewrite Hf.
    destruct Hrel as [-> | ->].
    + rewrite (take_S_r _ _ (result c)).
      * by rewrite take_insert_ge, Hpre by lia.
      * apply list_lookup_insert_eq. lia.
    + by rewrite (take_S_r _ _ _ Hf), Hpre.
Qed.

(** With every future ready the main thread gets through both loops in
    [stepsLeft] steps, provided there is a future at all: over an empty
    vector the polling loop never clears [wait]. *)
Lemma main_finishes k : forall m,
  chunkList <> [] ->
  (stepsLeft (length chunkList) m <= k)%nat ->
  (forall i, m = Waiting true i -> i = 0%nat) ->
  exists outputText,
    mainAt (run cipher mode (repeat Main k)
              (Threads (map result chunkList) m)) = Joined outputText.
Proof.
  induction k as [|k IH]; intros m Hne Hk Hw.
  - destruct m as [w i|i out|out]; simpl in Hk; try lia. by exists out.
  - simpl.
    assert (Hn : (1 <= length chunkList)%nat)
      by (destruct chunkList; [done | simpl; lia]).
    destruct m as [w i|i out|out]; simpl in *; rewrite ?list_lookup_fmap.
    + destruct (chunkList !! i) as [c|] eqn:Hc; simpl.
      * apply lookup_lt_Some in Hc.
        apply IH; [done | simpl; lia | by intros ? [=]].
      * apply lookup_ge_None in Hc.
        destruct w; simpl.
        { specialize (Hw i eq_refl). lia. }
        apply IH; [done | simpl; lia | by intros ? [=]].
    + destruct (chunkList !! i) as [c|] eqn:Hc; simpl.
      * apply lookup_lt_Some in Hc.
        apply IH; [done | simpl; lia | by intros ? [=]].
      * apply IH; [done | simpl; lia | by intros ? [=]].
    + apply IH; [done | simpl; lia | by intros ? [=]].
Qed.

(** However far a run has got, letting the workers finish and the main
    thread go on brings the main thread past its loops. *)
Lemma run_can_finish schedule :
  chunkList <> [] ->
  mainAt (run cipher mode (schedule ++ roundRobin (length chunkList))
            (launch chunkList))
  = Joined (joinChunks cipher mode chunkList).
Proof.
  intros Hne.
  pose proof (run_inv (schedule ++ roundRobin (length chunkList)) _ launch_inv)
    as [_ Hfin].
  pose proof (run_inv schedule _ launch_inv) as [Hfs Hm].
  revert Hfin. unfold roundRobin. rewrite !run_app.
  destruct (run cipher mode schedule (launch chunkList)) as [fs m].
  simpl in Hfs, Hm.
  rewrite (workers_finish (length chunkList) 0 fs m Hfs); [|lia|done].
  destruct (main_finishes (2 * length chunkList + 2) m Hne) as [out Hout].
  { destruct m; simpl; lia. }
  { intros i ->. by apply Hm. }
  rewrite Hout. by intros [_ ->].
Qed.

End Threads.

(** *** The applier as a whole *)

Lemma chunkedApply_joined cipher mode j schedule inputText outputText :
  chunkedApply cipher mode j schedule inputText = Some (Some outputText) ->
  exists chunkList,
    chunks inputText j = Some chunkList /\
    outputText = joinChunks cipher mode chunkList.
Proof.
  unfold chunkedApply.
  destruct (chunks inputText j) as [chunkList|]; [|done].
  destruct (run_inv cipher mode chunkList schedule _
              (launch_inv cipher mode chunkList)) as [_ Hm].
  destruct (mainAt _) as [w i|i out|out]; try done.
  intros [= <-]. exists chunkList. by destruct Hm.
Qed.

Lemma chunkedApply_roundRobin cipher mode j schedule inputText chunkList :
  chunks inputText j = Some chunkList ->
  chunkList <> [] ->
  chunkedApply cipher mode j (schedule ++ roundRobin (length chunkList)) inputText
  = Some (Some (joinChunks cipher mode chunkList)).
Proof.
  intros Hc Hne. unfold chunkedApply. rewrite Hc.
  by rewrite run_can_finish.
Qed.

Lemma joined_in_slice_order_witness :
  futures (run (CaesarCipher 3) Encrypt outOfOrder
             (launch [str "ATT"; str "ACK"; str "ATD"; str "AWN"]))
    = map (fun c => Ready (applyCipher (CaesarCipher 3) c Encrypt))
          [str "ATT"; str "ACK"; str "ATD"; str "AWN"] /\
  str "DWWDFNDWGDZQ"
    = joinChunks (CaesarCipher 3) Encrypt
        [str "ATT"; str "ACK"; str "ATD"; str "AWN"].
Proof.
  apply (joined_in_slice_order (CaesarCipher 3) Encrypt
           [str "ATT"; str "ACK"; str "ATD"; str "AWN"] outOfOrder).
  reflexivity.
Defined.

(* ================================================================= *)
(** ** The program *)

Lemma chunkLoop_length inputText j n : forall iThr chunkList,
  chunkLoop inputText j n iThr = Some chunkList -> length chunkList = n.
Proof.
  induction n as [|n IH]; intros iThr chunkList; simpl.
  - by intros [= <-].
  - destruct (inTextChunk inputText j iThr); [|done].
    destruct (chunkLoop inputText j n (wrap (iThr + 1))) eqn:E; [|done].
    intros [= <-]. simpl. f_equal. by eapply IH.
Qed.

(** Every run of [main] that ends, ends as the round-robin run does. *)
Lemma main_finished settings io schedule :
  finished (main settings io schedule) = true ->
  main settings io schedule = main settings io (roundRobin 4).
Proof.
  unfold main.
  destruct (helpRequested settings); [done|].
  destruct (versionRequested settings); [done|].
  destruct (negb (isEmpty (inputFile settings)) && negb (inputGood io)); [done|].
  destruct (cipherFactory _ _) as [cipher|]; [|done].
  destruct (chunkedApply cipher _ j_main schedule _) as [[out|]|] eqn:E.
  - intros _. apply chunkedApply_joined in E as (chunkList & Hc & ->).
    pose proof (chunkLoop_length _ _ _ _ _ Hc) as Hlen.
    change (N.to_nat j_main) with 4%nat in Hlen.
    rewrite <- Hlen.
    rewrite (chunkedApply_roundRobin _ _ _ [] _ chunkList Hc); [done|].
    by destruct chunkList.
  - done.
  - intros _. revert E. unfold chunkedApply.
    destruct (chunks _ j_main); [|done].
    by destruct (mainAt _).
Qed.

(** And the round-robin run does end. *)
Lemma main_roundRobin_finished settings io :
  finished (main settings io (roundRobin 4)) = true.
Proof.
  unfold main.
  destruct (helpRequested settings); [done|].
  destruct (versionRequested settings); [done|].
  destruct (negb (isEmpty (inputFile settings)) && negb (inputGood io)); [done|].
  destruct (cipherFactory _ _) as [cipher|]; [|done].
  destruct (chunks (readLoop (inputStream io) []) j_main) as [chunkList|] eqn:Hc.
  - pose proof (chunkLoop_length _ _ _ _ _ Hc) as Hlen.
    change (N.to_nat j_main) with 4%nat in Hlen.
    rewrite <- Hlen.
    rewrite (chunkedApply_roundRobin _ _ _ [] _ chunkList Hc)
      by (by destruct chunkList).
    by destruct (negb (isEmpty (outputFile settings)) && negb (outputGood io)).
  - unfold chunkedApply. by rewrite Hc.
Qed.

(** C9.  The chunked pipeline is deterministic: for fixed settings (cipher
    type, key, mode) and a fixed input, any two runs of the program that
    come to an end produce the same outcome, hence the same output text,
    whatever the schedules of the threads and the order in which the
    workers complete. *)
Theorem main_deterministic settings io schedule1 schedule2 :
  finished (main settings io schedule1) = true ->
  finished (main settings io schedule2) = true ->
  main settings io schedule1 = main settings io schedule2 /\
  outputOf (main settings io schedule1) = outputOf (main settings io schedule2).
Proof.
  intros H1 H2.
  rewrite (main_finished _ _ _ H1), (main_finished _ _ _ H2). done.
Qed.

Lemma main_deterministic_witness :
  main caesar3 attackAtDawn (roundRobin 4) = main caesar3 attackAtDawn outOfOrder /\
  outputOf (main caesar3 attackAtDawn (roundRobin 4))
    = outputOf (main caesar3 attackAtDawn outOfOrder).
Proof.
  apply (main_deterministic caesar3 attackAtDawn (roundRobin 4) outOfOrder);
    reflexivity.
Defined.

(** C7.  Caesar with key "3" in [Encrypt] mode: the raw input
    "Attack at Dawn!" is sanitized to "ATTACKATDAWN", and the text the
    program writes is "DWWDFNDWGDZQ", under the round-robin schedule and
    under every other schedule that lets the run end. *)
Theorem attack_at_dawn :
  cipherFactory Caesar (str "3") = Some (CaesarCipher 3) /\
  sanitize (str "Attack at Dawn!") = str "ATTACKATDAWN" /\
  main caesar3 attackAtDawn (roundRobin 4) = Written (str "DWWDFNDWGDZQ") /\
  forall schedule,
    finished (main caesar3 attackAtDawn schedule) = true ->
    main caesar3 attackAtDawn schedule = Written (str "DWWDFNDWGDZQ").
Proof.
  split; [reflexivity|]. split; [reflexivity|]. split; [reflexivity|].
  intros schedule Hfin. by rewrite (main_finished _ _ _ Hfin).
Qed.

(** C5.  When the run gets as far as the construction of the cipher and
    [cipherFactory] fails, [main] ends with the construction error: it
    returns 1 (a successful run returns 0), no worker is started (the
    outcome does not depend on the schedule) and no output text is written.
    Playfair with an empty key is such a failure. *)
Theorem construction_error_aborts settings io schedule :
  helpRequested settings = false ->
  versionRequested settings = false ->
  isEmpty (inputFile settings) || inputGood io = true ->
  cipherFactory (cipherType settings) (cipherKey settings) = None ->
  main settings io schedule = ConstructionError /\
  exitCode (main settings io schedule) = Some 1 /\
  exitCode (main settings io schedule) <> exitCode (Written []) /\
  outputOf (main settings io schedule) = None /\
  cipherFactory Playfair [] = None.
Proof.
  intros Hh Hv Hin Hc.
  assert (Hmain : main settings io schedule = ConstructionError).
  { unfold main. rewrite Hh, Hv, Hc.
    apply orb_true_iff in Hin as [-> | ->]; [done|].
    by rewrite andb_false_r. }
  rewrite Hmain. done.
Qed.

Lemma construction_error_aborts_witness :
  main playfairNoKey attackAtDawn outOfOrder = ConstructionError /\
  exitCode (main playfairNoKey attackAtDawn outOfOrder) = Some 1 /\
  exitCode (main playfairNoKey attackAtDawn outOfOrder) <> exitCode (Written []) /\
  outputOf (main playfairNoKey attackAtDawn outOfOrder) = None /\
  cipherFactory Playfair [] = None.
Proof.
  apply (construction_error_aborts playfairNoKey attackAtDawn outOfOrder);
    reflexivity.
Defined.

(* ================================================================= *)
(** ** The sanitizer *)

Lemma allAscii_spec p : allAscii p = true -> forall c, p c = true.
Proof.
  intros H c. unfold allAscii in H. rewrite List.forallb_forall in H.
  rewrite <- (ascii_nat_embedding c). apply H, in_seq.
  pose proof (nat_ascii_bounded c). lia.
Qed.

(** A decidable property of a character, settled by running through the
    256 characters. *)
Ltac by_all_ascii c :=
  match goal with |- ?P => apply (bool_decide_eq_true_1 P) end;
  revert c;
  match goal with
  | |- forall c, @?p c = true => apply (allAscii_spec p)
  end;
  vm_compute; reflexivity.

(** C8.  [transformChar] is idempotent: sanitizing the character that the
    sanitizer returned gives that character again, and sanitizing "absent"
    stays absent.  A letter is returned in upper case, a digit is returned
    unchanged, every other character is dropped. *)
Theorem transformChar_idempotent (c : ascii) :
  transformChar c ≫= transformChar = transformChar c /\
  (isalpha c = true ->
     transformChar c = Some (toupper c) /\ isupper (toupper c) = true) /\
  (isdigit c = true -> transformChar c = Some c) /\
  (isalpha c = false -> isdigit c = false -> transformChar c = None).
Proof.
  by_all_ascii c.
Qed.

(** What the sanitizer produces is left alone by the sanitizer. *)
Lemma transformChar_sanitized (c : ascii) :
  isupper c || isdigit c = true ->
  isspace c = false /\ transformChar c = Some c.
Proof.
  by_all_ascii c.
Qed.

Lemma transformChar_image (c c' : ascii) :
  transformChar c = Some c' -> isupper c' || isdigit c' = true.
Proof.
  assert (H : from_option (fun c' => isupper c' || isdigit c') true
                (transformChar c) = true) by by_all_ascii c.
  intros E. by rewrite E in H.
Qed.

Lemma readLoop_app inputStream : forall inputText,
  readLoop inputStream inputText = inputText ++ readLoop inputStream [].
Proof.
  induction inputStream as [|c rest IH]; intros inputText; simpl.
  - by rewrite app_nil_r.
  - destruct (isspace c); [apply IH|].
    rewrite IH, (IH (appendTransformed [] c)).
    unfold appendTransformed. destruct (transformChar c); simpl.
    + by rewrite <- app_assoc.
    + done.
Qed.

Lemma sanitize_sanitized raw : sanitized (sanitize raw).
Proof.
  unfold sanitize, sanitized.
  induction raw as [|c rest IH]; simpl; [constructor|].
  destruct (isspace c); [done|].
  rewrite readLoop_app. unfold appendTransformed.
  destruct (transformChar c) as [c'|] eqn:E; simpl; [|done].
  constructor; [by eapply transformChar_image | done].
Qed.

Lemma sanitize_fixes_sanitized t : sanitized t -> sanitize t = t.
Proof.
  unfold sanitize. induction 1 as [|c t Hc Ht IH]; simpl; [done|].
  destruct (transformChar_sanitized c Hc) as [-> Htc].
  rewrite readLoop_app. unfold appendTransformed. rewrite Htc. simpl.
  by rewrite IH.
Qed.

Lemma sanitize_idempotent raw : sanitize (sanitize raw) = sanitize raw.
Proof. apply sanitize_fixes_sanitized, sanitize_sanitized. Qed.

(* ================================================================= *)
(** ** Short texts *)

Lemma applyCipher_nil cipher mode : applyCipher cipher [] mode = [].
Proof. by destruct cipher. Qed.

(** As stated, C6 would have a text shorter than the worker count handled
    as by one worker; the loop of [main] still makes four chunks. *)
Lemma short_text_counterexample :
  size (str "AB") < j_main /\
  chunks (str "AB") j_main = Some [[]; []; []; str "AB"] /\
  chunks (str "AB") 1 = Some [str "AB"] /\
  chunks (str "AB") j_main <> chunks (str "AB") 1 /\
  length (futures (launch [[]; []; []; str "AB"])) = 4%nat.
Proof. repeat split; done. Qed.

(** C6, amended.  For a text shorter than the worker count of four, the
    applier still starts four workers: the first three get an empty chunk
    and the final one gets the entire text, so that the text a finished run
    returns is what one sequential application of the cipher to the whole
    text returns. *)
Theorem short_text_four_workers cipher mode schedule inputText :
  size inputText < j_main ->
  chunks inputText j_main = Some [[]; []; []; inputText] /\
  length (futures (run cipher mode schedule (launch [[]; []; []; inputText])))
    = 4%nat /\
  (forall outputText,
     chunkedApply cipher mode j_main schedule inputText = Some (Some outputText) ->
     outputText = sequentialApply cipher mode inputText) /\
  chunkedApply cipher mode j_main (roundRobin 4) inputText
    = Some (Some (sequentialApply cipher mode inputText)).
Proof.
  intros Hs. pose proof (chunks_short inputText Hs) as Hc.
  assert (Hjoin : joinChunks cipher mode [[]; []; []; inputText]
                  = sequentialApply cipher mode inputText).
  { unfold joinChunks, sequentialApply. simpl.
    by rewrite applyCipher_nil, app_nil_r. }
  split; [done|]. split; [|split].
  - destruct (run_inv cipher mode [[]; []; []; inputText] schedule _
                (launch_inv cipher mode _)) as [Hfs _].
    by rewrite <- (Forall2_length _ _ _ Hfs).
  - intros out Hout.
    apply chunkedApply_joined in Hout as (chunkList & Hc' & ->).
    rewrite Hc in Hc'. by injection Hc' as <-.
  - rewrite <- Hjoin.
    exact (chunkedApply_roundRobin cipher mode j_main [] inputText
             [[]; []; []; inputText] Hc ltac:(done)).
Qed.

Lemma short_text_four_workers_witness :
  chunks (str "AB") j_main = Some [[]; []; []; str "AB"] /\
  length (futures (run (CaesarCipher 3) Encrypt outOfOrder
                     (launch [[]; []; []; str "AB"]))) = 4%nat /\
  (forall outputText,
     chunkedApply (CaesarCipher 3) Encrypt j_main outOfOrder (str "AB")
       = Some (Some outputText) ->
     outputText = sequentialApply (CaesarCipher 3) Encrypt (str "AB")) /\
  chunkedApply (CaesarCipher 3) Encrypt j_main (roundRobin 4) (str "AB")
    = Some (Some (sequentialApply (CaesarCipher 3) Encrypt (str "AB"))).
Proof.
  apply (short_text_four_workers (CaesarCipher 3) Encrypt outOfOrder (str "AB")).
  reflexivity.
Defined.

(* ================================================================= *)
(** ** Caesar and Vigenere: decrypting undoes encrypting *)

Lemma letterAt_spec k :
  k < 26 -> letterIndex (letterAt k) = k /\ isupper (letterAt k) = true.
Proof.
  intros Hk. unfold letterIndex, isupper, letterAt.
  rewrite N_ascii_embedding by lia. split; [lia|].
  apply andb_true_iff. split; apply N.leb_le; lia.
Qed.

Lemma letterIndex_spec c :
  isupper c = true -> letterAt (letterIndex c) = c /\ letterIndex c < 26.
Proof. by_all_ascii c. Qed.

Lemma isupper_shiftLetter mode shift c :
  isupper (shiftLetter mode shift c) = isupper c.
Proof.
  unfold shiftLetter. destruct (isupper c) eqn:Hc; [|done].
  destruct mode; apply letterAt_spec, N.mod_lt; done.
Qed.

Lemma shiftLetter_inverse shift c :
  shiftLetter Decrypt shift (shiftLetter Encrypt shift c) = c.
Proof.
  pose proof (isupper_shiftLetter Encrypt shift c) as Hup.
  unfold shiftLetter at 1. rewrite Hup.
  destruct (isupper c) eqn:Hc; [|unfold shiftLetter; by rewrite Hc].
  unfold shiftLetter. rewrite Hc.
  destruct (letterIndex_spec c Hc) as [Hback Hidx].
  assert (Hs : shift mod 26 < 26) by (by apply N.mod_lt).
  set (s := shift mod 26) in *. set (i := letterIndex c) in *.
  assert (Hk : (i + s) mod 26 < 26) by (by apply N.mod_lt).
  destruct (letterAt_spec _ Hk) as [-> _].
  etransitivity; [|exact Hback]. f_equal.
  destruct (N.lt_ge_cases (i + s) 26) as [Hlt|Hge].
  - rewrite (N.mod_small (i + s)) by done.
    replace (i + s + (26 - s)) with (i + 1 * 26) by lia.
    rewrite N.Div0.mod_add. by apply N.mod_small.
  - replace (i + s) with (i + s - 26 + 1 * 26) by lia.
    rewrite N.Div0.mod_add, (N.mod_small (i + s - 26)) by lia.
    replace (i + s - 26 + (26 - s)) with i by lia. by apply N.mod_small.
Qed.

Lemma caesar_round_trip shift t :
  caesarApply shift Decrypt (caesarApply shift Encrypt t) = t.
Proof.
  unfold caesarApply. induction t as [|c t IH]; simpl; [done|].
  by rewrite shiftLetter_inverse, IH.
Qed.

Lemma vigenere_round_trip keyword t : forall phase,
  vigenereFrom keyword Decrypt phase (vigenereFrom keyword Encrypt phase t) = t.
Proof.
  induction t as [|c t IH]; intros phase; simpl; [done|].
  destruct (isupper c) eqn:Hc; simpl.
  - by rewrite isupper_shiftLetter, Hc, shiftLetter_inverse, IH.
  - by rewrite Hc, IH.
Qed.

(* ================================================================= *)
(** ** Chunks and the ciphers *)

(** Caesar works character by character: joining the chunks' results is
    the result on the joined chunks. *)
Lemma joinChunks_caesar shift mode chunkList :
  joinChunks (CaesarCipher shift) mode chunkList
  = caesarApply shift mode (concat chunkList).
Proof.
  unfold joinChunks, caesarApply. simpl.
  induction chunkList as [|c cs IH]; simpl; [done|].
  by rewrite IH, map_app.
Qed.

(** The chunked Caesar cipher is the sequential one, for every worker
    count and every schedule. *)
Lemma caesar_chunk_invariant shift mode j schedule inputText outputText :
  1 <= j -> j < SIZE_MAX1 -> size inputText < SIZE_MAX1 ->
  chunkedApply (CaesarCipher shift) mode j schedule inputText
    = Some (Some outputText) ->
  outputText = sequentialApply (CaesarCipher shift) mode inputText.
Proof.
  intros Hj1 Hj2 Hs Hout.
  apply chunkedApply_joined in Hout as (chunkList & Hc & ->).
  rewrite joinChunks_caesar.
  by rewrite (chunks_concat inputText j Hj1 Hj2 Hs chunkList Hc).
Qed.

(** C1 on the code.  Vigenere with keyword "AB" on "AAAAAA": one call on
    the whole text gives "ABABAB"; the four chunks "A", "A", "A", "AAA" each
    start the keyword again and the program writes "AAAABA".  Playfair with
    keyword "PLAYFAIR" on "HELLO": one call gives "KGYVRV"; the chunks "H",
    "E", "L", "LO" are padded one by one and the program writes eight
    letters. *)
Theorem chunked_differs_from_sequential :
  cipherFactory Vigenere (str "AB") = Some (VigenereCipher (str "AB")) /\
  sequentialApply (VigenereCipher (str "AB")) Encrypt (str "AAAAAA")
    = str "ABABAB" /\
  chunks (str "AAAAAA") j_main = Some [str "A"; str "A"; str "A"; str "AAA"] /\
  main vigenereAB (stdin "AAAAAA") (roundRobin 4) = Written (str "AAAABA") /\
  main vigenereAB (stdin "AAAAAA") outOfOrder = Written (str "AAAABA") /\
  cipherFactory Playfair (str "PLAYFAIR")
    = Some (PlayfairCipher (str "PLAYFIRBCDEGHKMNOQSTUVWXZ")) /\
  sequentialApply (PlayfairCipher (str "PLAYFIRBCDEGHKMNOQSTUVWXZ")) Encrypt
    (str "HELLO") = str "KGYVRV" /\
  main playfairPLAYFAIR (stdin "HELLO") (roundRobin 4)
    = Written (str "KWKUYVRV").
Proof. repeat split; vm_compute; reflexivity. Qed.

(* ================================================================= *)
(** ** Playfair: the key square *)

Lemma member_spec c l : member c l = true <-> c ∈ l.
Proof.
  unfold member. rewrite existsb_exists, list_elem_of_In. split.
  - intros (x & Hx & Heq). apply Ascii.eqb_eq in Heq. by subst.
  - intros Hc. exists c. split; [done | apply Ascii.eqb_refl].
Qed.

Lemma square_letter c :
  member c alphabet25 = true -> isupper c = true /\ foldJ c = c.
Proof. by_all_ascii c. Qed.

Lemma foldJ_letter c :
  isupper c = true -> member (foldJ c) alphabet25 = true.
Proof. by_all_ascii c. Qed.

Lemma key_letter c :
  isalpha c = true -> member (foldJ (toupper c)) alphabet25 = true.
Proof. by_all_ascii c. Qed.

Lemma padFor_letter a :
  member (padFor a) alphabet25 = true /\ Ascii.eqb a (padFor a) = false.
Proof. by_all_ascii a. Qed.

Lemma alphabet25_NoDup : NoDup alphabet25.
Proof. apply (bool_decide_eq_true_1 (NoDup alphabet25)). by vm_compute. Qed.

(** [dedupFrom] keeps exactly the letters not seen before, once each. *)
Lemma dedupFrom_spec l : forall seen,
  NoDup (dedupFrom seen l) /\
  forall c, c ∈ dedupFrom seen l <-> c ∈ l /\ c ∉ seen.
Proof.
  induction l as [|x l IH]; intros seen; simpl.
  - split; [constructor|]. intros c. rewrite elem_of_nil. tauto.
  - destruct (member x seen) eqn:Hx.
    + apply member_spec in Hx. destruct (IH seen) as [Hnd Hin].
      split; [done|]. intros c. rewrite Hin, elem_of_cons.
      split; [tauto|]. intros [[->|Hc] Hn]; tauto.
    + assert (Hx' : x ∉ seen)
        by (rewrite <- member_spec; by rewrite Hx).
      destruct (IH (x :: seen)) as [Hnd Hin]. split.
      * apply NoDup_cons. split; [|done].
        rewrite Hin, elem_of_cons. tauto.
      * intros c. rewrite !elem_of_cons, Hin, not_elem_of_cons.
        destruct (decide (c = x)) as [->|Hne]; tauto.
Qed.

(** The factory's square is a key square. *)
Lemma keySquare_valid key :
  forallb isalpha key = true -> validSquare (keySquare key) = true.
Proof.
  intros Hkey. unfold keySquare.
  set (l := map (fun c => foldJ (toupper c)) key ++ alphabet25).
  destruct (dedupFrom_spec l []) as [Hnd Hin].
  assert (Hsame : forall c, c ∈ dedupFrom [] l <-> c ∈ alphabet25).
  { intros c. rewrite Hin. unfold l. rewrite elem_of_app, elem_of_nil.
    split; [|tauto]. intros [[Hc|Hc] _]; [|done].
    apply list_elem_of_fmap in Hc as (x & -> & Hx).
    apply member_spec, key_letter.
    rewrite List.forallb_forall in Hkey. by apply Hkey, list_elem_of_In. }
  pose proof (NoDup_Permutation _ _ Hnd alphabet25_NoDup Hsame) as Hperm.
  unfold validSquare. apply andb_true_iff. split.
  - by rewrite (Permutation_length Hperm).
  - apply List.forallb_forall. intros c Hc.
    by apply member_spec, Hsame, list_elem_of_In.
Qed.

Lemma indexOf_nth (l : text) d : forall p,
  NoDup l -> (p < length l)%nat -> indexOf (nth p l d) l = p.
Proof.
  induction l as [|x l IH]; intros p Hnd Hp; simpl in *; [lia|].
  apply NoDup_cons in Hnd as [Hx Hnd].
  destruct p as [|p]; [by rewrite Ascii.eqb_refl|].
  destruct (Ascii.eqb_spec x (nth p l d)) as [->|_].
  - exfalso. apply Hx, list_elem_of_In, nth_In. lia.
  - f_equal. apply IH; [done | lia].
Qed.

Lemma nth_indexOf (l : text) d c :
  c ∈ l -> nth (indexOf c l) l d = c /\ (indexOf c l < length l)%nat.
Proof.
  induction l as [|x l IH]; intros Hc; simpl.
  - by apply elem_of_nil in Hc.
  - destruct (Ascii.eqb_spec x c) as [->|Hne]; [split; [done | lia]|].
    apply elem_of_cons in Hc as [->|Hc]; [done|].
    destruct (IH Hc). split; [done | lia].
Qed.

Lemma digraphPositions_invertible pa pb :
  (pa < 25)%nat -> (pb < 25)%nat -> pa <> pb ->
  (fst (digraphPositions Encrypt pa pb) < 25)%nat /\
  (snd (digraphPositions Encrypt pa pb) < 25)%nat /\
  fst (digraphPositions Encrypt pa pb) <> snd (digraphPositions Encrypt pa pb) /\
  digraphPositions Decrypt (fst (digraphPositions Encrypt pa pb))
                           (snd (digraphPositions Encrypt pa pb)) = (pa, pb).
Proof.
  intros Ha Hb Hne.
  assert (Hall : digraphPositionsInvertible = true) by (by vm_compute).
  unfold digraphPositionsInvertible in Hall.
  rewrite List.forallb_forall in Hall.
  specialize (Hall pa ltac:(apply in_seq; lia)).
  rewrite List.forallb_forall in Hall.
  specialize (Hall pb ltac:(apply in_seq; lia)).
  apply orb_true_iff in Hall as [Heq|Hall];
    [by apply Nat.eqb_eq in Heq|].
  destruct (digraphPositions Encrypt pa pb) as [x y]. simpl.
  destruct (digraphPositions Decrypt x y) as [pa' pb'].
  repeat (apply andb_true_iff in Hall as [Hall ?]).
  repeat match goal with
         | H : _ && _ = true |- _ => apply andb_true_iff in H as [? ?]
         | H : Nat.eqb _ _ = true |- _ => apply Nat.eqb_eq in H
         | H : Nat.ltb _ _ = true |- _ => apply Nat.ltb_lt in H
         | H : negb (Nat.eqb _ _) = true |- _ =>
             apply negb_true_iff, Nat.eqb_neq in H
         end.
  by subst.
Qed.

Lemma playfairDigraph_positions square mode a b :
  playfairDigraph square mode a b
  = (nth (fst (digraphPositions mode (indexOf a square) (indexOf b square)))
       square "A"%char,
     nth (snd (digraphPositions mode (indexOf a square) (indexOf b square)))
       square "A"%char).
Proof.
  unfold playfairDigraph, digraphPositions, squareAt.
  by repeat case_match.
Qed.

Section KeySquare.

Variable square : text.
Hypothesis square_valid : validSquare square = true.

Lemma square_length : length square = 25%nat.
Proof using All.
  unfold validSquare in square_valid.
  apply andb_true_iff in square_valid as [Hlen _]. by apply Nat.eqb_eq.
Qed.

Lemma square_Permutation : alphabet25 ≡ₚ square.
Proof using All.
  apply submseteq_length_Permutation.
  - apply NoDup_submseteq; [apply alphabet25_NoDup|].
    intros c Hc. unfold validSquare in square_valid.
    apply andb_true_iff in square_valid as [_ Hall].
    rewrite List.forallb_forall in Hall.
    by apply member_spec, Hall, list_elem_of_In.
  - by rewrite square_length.
Qed.

Lemma square_NoDup : NoDup square.
Proof using All.
  rewrite <- square_Permutation. apply alphabet25_NoDup.
Qed.

Lemma in_square c : c ∈ square <-> member c alphabet25 = true.
Proof using All. by rewrite member_spec, square_Permutation. Qed.

(** A pair of different letters of the square is encrypted to a pair of
    different letters of the square, which decrypts to the pair. *)
Lemma playfairDigraph_inverse a b :
  member a alphabet25 = true -> member b alphabet25 = true -> a <> b ->
  let xy := playfairDigraph square Encrypt a b in
  member (fst xy) alphabet25 = true /\
  member (snd xy) alphabet25 = true /\
  fst xy <> snd xy /\
  playfairDigraph square Decrypt (fst xy) (snd xy) = (a, b).
Proof using All.
  intros Ha Hb Hne. simpl.
  apply in_square in Ha, Hb.
  destruct (nth_indexOf square "A"%char a Ha) as [Hna Hia].
  destruct (nth_indexOf square "A"%char b Hb) as [Hnb Hib].
  rewrite square_length in Hia, Hib.
  assert (Hpne : indexOf a square <> indexOf b square) by congruence.
  destruct (digraphPositions_invertible _ _ Hia Hib Hpne)
    as (Hx & Hy & Hxy & Hinv).
  rewrite (playfairDigraph_positions square Encrypt). simpl.
  set (x := fst (digraphPositions Encrypt (indexOf a square) (indexOf b square)))
    in *.
  set (y := snd (digraphPositions Encrypt (indexOf a square) (indexOf b square)))
    in *.
  assert (Hix : indexOf (nth x square "A"%char) square = x)
    by (apply indexOf_nth; [apply square_NoDup | by rewrite square_length]).
  assert (Hiy : indexOf (nth y square "A"%char) square = y)
    by (apply indexOf_nth; [apply square_NoDup | by rewrite square_length]).
  split; [|split; [|split]].
  - apply in_square, list_elem_of_In, nth_In. by rewrite square_length.
  - apply in_square, list_elem_of_In, nth_In. by rewrite square_length.
  - congruence.
  - rewrite (playfairDigraph_positions square Decrypt), Hix, Hiy, Hinv.
    simpl. by rewrite Hna, Hnb.
Qed.

End KeySquare.

(* ================================================================= *)
(** ** Playfair: pairing, and decrypting what was encrypted *)

Lemma letters_upper c t :
  isupper c = true -> letters (c :: t) = c :: letters t.
Proof. intros Hc. unfold letters. simpl. by rewrite Hc. Qed.

Lemma letters_other c t :
  isupper c = false -> letters (c :: t) = letters t.
Proof.
  intros Hc. unfold letters. simpl. by rewrite Hc.
Qed.

Arguments letters : simpl never.

Lemma wellPaired_cons a b l :
  wellPaired (a :: b :: l) = true <->
  a <> b /\ member a alphabet25 = true /\ member b alphabet25 = true /\
  wellPaired l = true.
Proof.
  simpl. rewrite !andb_true_iff, negb_true_iff.
  destruct (Ascii.eqb_spec a b); split; intros; destruct_and?; done.
Qed.

(** Texts are taken apart two letters at a time. *)
Lemma pairs_ind (P : text -> Prop) :
  P [] -> (forall a, P [a]) -> (forall a b l, P l -> P (a :: b :: l)) ->
  forall l, P l.
Proof.
  intros Hnil Hone Hstep l.
  assert (H : P l /\ forall a, P (a :: l)); [|by destruct H].
  induction l as [|b l [IH1 IH2]]; [done|].
  split; [apply IH2|]. intros a. by apply Hstep.
Qed.

Lemma wellPaired_upper l :
  wellPaired l = true -> Forall (fun c => isupper c = true) l.
Proof.
  induction l as [| a | a b l IH] using pairs_ind; [done | done |].
  intros (_ & Ha & Hb & Hl)%wellPaired_cons.
  repeat constructor; [by apply square_letter.. | by apply IH].
Qed.

(** What pair formation produces pairs up as it stands. *)
Lemma playfairPairs_wellPaired t :
  wellPaired (letters (playfairPairs None t)) = true /\
  forall a, member a alphabet25 = true ->
            wellPaired (a :: letters (playfairPairs (Some a) t)) = true.
Proof.
  induction t as [|c t [IH1 IH2]]; simpl.
  - split; [done|]. intros a Ha.
    destruct (padFor_letter a) as [Hp Hne].
    rewrite letters_upper by (by apply square_letter).
    apply wellPaired_cons. repeat split; try done.
    intros E. by rewrite <- E, Ascii.eqb_refl in Hne.
  - destruct (isupper c) eqn:Hc.
    + pose proof (foldJ_letter c Hc) as Hf.
      destruct (square_letter _ Hf) as [Hup _].
      split; [rewrite letters_upper by done; by apply IH2|].
      intros a Ha. destruct (Ascii.eqb_spec a (foldJ c)) as [Heq|Hne].
      * destruct (padFor_letter a) as [Hp Hpne].
        rewrite letters_upper by (by apply square_letter).
        rewrite letters_upper by done.
        apply wellPaired_cons. repeat split; try done; [|by apply IH2].
        intros E. by rewrite <- E, Ascii.eqb_refl in Hpne.
      * rewrite letters_upper by done.
        apply wellPaired_cons. by repeat split.
    + rewrite !letters_other by done. split; [done|].
      intros a Ha. rewrite letters_other by done. by apply IH2.
Qed.

(** Pair formation changes nothing in a text whose letters pair up as they
    stand. *)
Lemma playfairPairs_fixed t :
  (wellPaired (letters t) = true -> playfairPairs None t = t) /\
  (forall a, wellPaired (a :: letters t) = true ->
             playfairPairs (Some a) t = t).
Proof.
  induction t as [|c t [IH1 IH2]]; simpl.
  - split; [done|]. intros a Ha. done.
  - destruct (isupper c) eqn:Hc.
    + rewrite !letters_upper by done. split.
      * intros Hw.
        assert (Hm : member c alphabet25 = true).
        { destruct (letters t) as [|b l]; [done|].
          by apply wellPaired_cons in Hw as (_ & Hm & _). }
        destruct (square_letter c Hm) as [_ ->]. f_equal. by apply IH2.
      * intros a (Hne & Ha & Hm & Hw)%wellPaired_cons.
        destruct (square_letter c Hm) as [_ ->].
        destruct (Ascii.eqb_spec a c) as [?|_]; [done|].
        f_equal. by apply IH1.
    + rewrite !letters_other by done. split.
      * intros Hw. f_equal. by apply IH1.
      * intros a Hw. f_equal. by apply IH2.
Qed.

Lemma length_mapDigraphs f l : length (mapDigraphs f l) = length l.
Proof.
  induction l as [| a | a b l IH] using pairs_ind; simpl; [done | done |].
  by rewrite IH.
Qed.

Lemma letters_refill t : forall ls,
  length ls = length (letters t) ->
  Forall (fun c => isupper c = true) ls ->
  letters (refill t ls) = ls.
Proof.
  induction t as [|c t IH]; intros ls Hlen Hup; simpl.
  - by destruct ls.
  - destruct (isupper c) eqn:Hc.
    + rewrite letters_upper in Hlen by done.
      destruct ls as [|x ls]; [done|].
      apply Forall_cons in Hup as [Hx Hup].
      rewrite letters_upper by done. f_equal.
      apply IH; [by injection Hlen | done].
    + rewrite letters_other in Hlen |- * by done. by apply IH.
Qed.

Lemma refill_refill t : forall ls ls',
  length ls = length (letters t) ->
  length ls' = length (letters t) ->
  Forall (fun c => isupper c = true) ls ->
  refill (refill t ls) ls' = refill t ls'.
Proof.
  induction t as [|c t IH]; intros ls ls' Hlen Hlen' Hup; simpl; [done|].
  destruct (isupper c) eqn:Hc.
  - rewrite letters_upper in Hlen, Hlen' by done.
    destruct ls as [|x ls]; [done|]. destruct ls' as [|y ls']; [done|].
    apply Forall_cons in Hup as [Hx Hup]. simpl. rewrite Hx. f_equal.
    apply IH; [by injection Hlen | by injection Hlen' | done].
  - rewrite letters_other in Hlen, Hlen' by done. simpl. rewrite Hc.
    f_equal. by apply IH.
Qed.

Lemma refill_letters t : refill t (letters t) = t.
Proof.
  induction t as [|c t IH]; simpl; [done|].
  destruct (isupper c) eqn:Hc.
  - rewrite letters_upper by done. by rewrite IH.
  - rewrite letters_other by done. by rewrite IH.
Qed.

Section PlayfairRoundTrip.

Variable square : text.
Hypothesis square_valid : validSquare square = true.

Lemma mapDigraphs_inverse l :
  wellPaired l = true ->
  wellPaired (mapDigraphs (playfairDigraph square Encrypt) l) = true /\
  mapDigraphs (playfairDigraph square Decrypt)
    (mapDigraphs (playfairDigraph square Encrypt) l) = l.
Proof using All.
  induction l as [| a | a b l IH] using pairs_ind; [done | done |].
  intros (Hne & Ha & Hb & Hl)%wellPaired_cons.
  destruct (IH Hl) as [IHw IHi].
  destruct (playfairDigraph_inverse square square_valid a b Ha Hb Hne)
    as (Hx & Hy & Hxy & Hinv).
  cbn [mapDigraphs]. split.
  - by apply wellPaired_cons.
  - by rewrite Hinv, IHi.
Qed.

(** Decrypting what was encrypted gives the text as pair formation left
    it: [J] folded into [I] and the padding letters in place. *)
Lemma playfair_round_trip t :
  playfairApply square Decrypt (playfairApply square Encrypt t)
  = playfairPairs None t.
Proof using All.
  unfold playfairApply.
  set (paired := playfairPairs None t).
  destruct (playfairPairs_wellPaired t) as [Hw _]. fold paired in Hw.
  destruct (mapDigraphs_inverse _ Hw) as [Hew Hinv].
  set (enc := mapDigraphs (playfairDigraph square Encrypt) (letters paired)) in *.
  assert (Hlen : length enc = length (letters paired))
    by apply length_mapDigraphs.
  pose proof (wellPaired_upper _ Hew) as Hup.
  assert (Hletters : letters (refill paired enc) = enc)
    by (by apply letters_refill).
  rewrite (proj1 (playfairPairs_fixed (refill paired enc)))
    by (by rewrite Hletters).
  rewrite Hletters, Hinv, refill_refill by done.
  apply refill_letters.
Qed.

Lemma playfair_round_trip_exact t :
  wellPaired (letters t) = true ->
  playfairApply square Decrypt (playfairApply square Encrypt t) = t.
Proof using All.
  intros Hw. rewrite playfair_round_trip.
  by apply playfairPairs_fixed.
Qed.

End PlayfairRoundTrip.

(* ================================================================= *)
(** ** Encrypt, then decrypt *)

(** As stated, C2 would have Playfair return a text that needs no padding
    as it was; "JA" needs none, and comes back as "IA". *)
Lemma round_trip_counterexample :
  cipherFactory Playfair (str "PLAYFAIR")
    = Some (PlayfairCipher (str "PLAYFIRBCDEGHKMNOQSTUVWXZ")) /\
  sanitized (str "JA") /\
  length (playfairPairs None (str "JA")) = length (str "JA") /\
  applyCipher (PlayfairCipher (str "PLAYFIRBCDEGHKMNOQSTUVWXZ"))
    (applyCipher (PlayfairCipher (str "PLAYFIRBCDEGHKMNOQSTUVWXZ"))
       (str "JA") Encrypt) Decrypt = str "IA" /\
  str "IA" <> str "JA".
Proof.
  split; [reflexivity|]. split; [by repeat constructor|].
  split; [reflexivity|]. split; [reflexivity | discriminate].
Qed.

(** C2, amended.  For every cipher the factory constructs and every text,
    applying the cipher in [Encrypt] mode and then in [Decrypt] mode returns
    the text for Caesar and for Vigenere; for Playfair it returns the text
    as pair formation leaves it, with [J] folded into [I] and the padding
    letters inserted, which is the text itself when its letters are an even
    number of letters other than [J] and no pair is a doubled letter. *)
Theorem encrypt_then_decrypt type key cipher t :
  cipherFactory type key = Some cipher ->
  match type with
  | Playfair =>
      applyCipher cipher (applyCipher cipher t Encrypt) Decrypt
        = playfairPairs None t /\
      (wellPaired (letters t) = true ->
       applyCipher cipher (applyCipher cipher t Encrypt) Decrypt = t)
  | Caesar | Vigenere =>
      applyCipher cipher (applyCipher cipher t Encrypt) Decrypt = t
  end.
Proof.
  intros Hf. destruct type; simpl in Hf.
  - destruct (caesarKey key) as [shift|]; [|done].
    injection Hf as <-. apply caesar_round_trip.
  - destruct (alphabeticKey key) eqn:Hk; [|done].
    injection Hf as <-.
    apply andb_true_iff in Hk as [_ Hk].
    pose proof (keySquare_valid key Hk) as Hsq. split.
    + by apply playfair_round_trip.
    + by apply playfair_round_trip_exact.
  - destruct (alphabeticKey key); [|done].
    injection Hf as <-. apply vigenere_round_trip.
Qed.

Lemma encrypt_then_decrypt_witness :
  applyCipher (PlayfairCipher (str "PLAYFIRBCDEGHKMNOQSTUVWXZ"))
    (applyCipher (PlayfairCipher (str "PLAYFIRBCDEGHKMNOQSTUVWXZ"))
       (str "HELLO") Encrypt) Decrypt
    = str "HELXLO" /\
  (wellPaired (letters (str "HELLO")) = true ->
   applyCipher (PlayfairCipher (str "PLAYFIRBCDEGHKMNOQSTUVWXZ"))
     (applyCipher (PlayfairCipher (str "PLAYFIRBCDEGHKMNOQSTUVWXZ"))
        (str "HELLO") Encrypt) Decrypt
     = str "HELLO").
Proof.
  apply (encrypt_then_decrypt Playfair (str "PLAYFAIR")
           (PlayfairCipher (str "PLAYFIRBCDEGHKMNOQSTUVWXZ")) (str "HELLO")).
  reflexivity.
Defined.

(* ================================================================= *)
(** * More properties of [main] *)

(** ** The polling loop (lines 132-145) *)

Section Polling.

Variable cipher : Cipher.
Variable mode : CipherMode.
Variable chunkList : list text.

Lemma launch_firstReady :
  firstReadyInv cipher mode chunkList (launch chunkList).
Proof. intros Hw. discriminate Hw. Qed.

Lemma step_firstReady s p :
  threadsInv cipher mode chunkList s ->
  firstReadyInv cipher mode chunkList s ->
  firstReadyInv cipher mode chunkList (step cipher mode s p).
Proof.
  destruct s as [fs m]. intros [Hfs Hm] Hfirst. unfold firstReadyInv in *.
  simpl in *. destruct p as [iThr|]; simpl.
  - intros Hw. destruct (Hfirst Hw) as (c0 & Hc0 & Hf0).
    exists c0. split; [done|]. unfold workerStep.
    destruct (fs !! iThr) as [[c|r]|] eqn:Hf; try done.
    rewrite list_lookup_insert_ne; [done|]. intros ->. congruence.
  - destruct m as [w i|i out|out]; simpl in *;
      [|intros _; by apply Hfirst..].
    destruct (fs !! i) as [[c|r]|] eqn:Hf.
    + destruct w; simpl; [done | by intros _; apply Hfirst].
    + intros _. destruct w; [|by apply Hfirst].
      rewrite (Hm eq_refl) in Hf.
      destruct (Forall2_lookup_r _ _ _ _ _ Hfs Hf) as (c0 & Hc0 & Hrel).
      exists c0. split; [done|].
      destruct Hrel as [Hrel|Hrel]; [done | by rewrite Hf, Hrel].
    + destruct w; simpl; [done | by intros _; apply Hfirst].
Qed.

Lemma run_firstReady schedule : forall s,
  threadsInv cipher mode chunkList s ->
  firstReadyInv cipher mode chunkList s ->
  firstReadyInv cipher mode chunkList (run cipher mode schedule s).
Proof.
  induction schedule as [|p schedule IH]; intros s Hs Hf; [done|].
  apply IH; [by apply step_inv | by apply step_firstReady].
Qed.

(** X1.  Under every schedule, once the polling loop has cleared [wait]
    (and so also when the main thread has left the loop) worker 0 has
    completed: future 0 holds the cipher applied to chunk 0. *)
Theorem wait_cleared_first_ready schedule :
  waitCleared (mainAt (run cipher mode schedule (launch chunkList))) = true ->
  exists c0,
    chunkList !! 0%nat = Some c0 /\
    futures (run cipher mode schedule (launch chunkList)) !! 0%nat
      = Some (Ready (applyCipher cipher c0 mode)).
Proof.
  apply (run_firstReady schedule);
    [apply launch_inv | apply launch_firstReady].
Qed.

Lemma blocked_get k : forall fs i (outputText c : text),
  fs !! i = Some (Running c) ->
  run cipher mode (repeat Main k) (Threads fs (Collecting i outputText))
  = Threads fs (Collecting i outputText).
Proof.
  induction k as [|k IH]; intros fs i out c Hf; [done|].
  simpl. rewrite Hf. by eapply IH.
Qed.

End Polling.

Lemma wait_cleared_first_ready_witness :
  exists c0,
    [str "ATT"; str "ACK"; str "ATD"; str "AWN"] !! 0%nat = Some c0 /\
    futures (run (CaesarCipher 3) Encrypt firstOnly
               (launch [str "ATT"; str "ACK"; str "ATD"; str "AWN"])) !! 0%nat
      = Some (Ready (applyCipher (CaesarCipher 3) c0 Encrypt)).
Proof.
  apply (wait_cleared_first_ready (CaesarCipher 3) Encrypt
           [str "ATT"; str "ACK"; str "ATD"; str "AWN"] firstOnly).
  reflexivity.
Defined.

(** X2.  The polling loop does not wait for all the threads: when worker 0
    has completed and no other, two steps of the main thread take it out of
    the [while] loop with every other future still running.  It is [get]
    that waits: the main thread collects the result of future 0 and then
    stays in front of future 1, however often it is scheduled. *)
Theorem polling_waits_for_first_only cipher mode (c0 c1 : text) rest k :
  mainAt (run cipher mode firstOnly (launch (c0 :: c1 :: rest)))
    = Collecting 0 [] /\
  futures (run cipher mode firstOnly (launch (c0 :: c1 :: rest)))
    = Ready (applyCipher cipher c0 mode) :: Running c1 :: map Running rest /\
  mainAt (run cipher mode (firstOnly ++ repeat Main (S k))
            (launch (c0 :: c1 :: rest)))
    = Collecting 1 (applyCipher cipher c0 mode).
Proof.
  split; [reflexivity|]. split; [reflexivity|].
  rewrite run_app.
  change (run cipher mode firstOnly (launch (c0 :: c1 :: rest))) with
    (Threads (Ready (applyCipher cipher c0 mode) :: Running c1 :: map Running rest)
       (Collecting 0 [])).
  change (repeat Main (S k)) with (Main :: repeat Main k).
  change (run cipher mode (Main :: repeat Main k)
            (Threads (Ready (applyCipher cipher c0 mode) :: Running c1
                        :: map Running rest) (Collecting 0 [])))
    with (run cipher mode (repeat Main k)
            (Threads (Ready (applyCipher cipher c0 mode) :: Running c1
                        :: map Running rest)
               (Collecting 1 (applyCipher cipher c0 mode)))).
  by rewrite (blocked_get cipher mode k _ 1 _ c1).
Qed.

(** ** The exits of [main] *)

Lemma chunkedApply_main_throws_never cipher mode schedule inputText :
  size inputText < SIZE_MAX1 ->
  chunkedApply cipher mode j_main schedule inputText <> None.
Proof.
  intros Hfit. unfold chunkedApply.
  assert (Hj1 : 1 <= j_main) by (unfold j_main; lia).
  rewrite (chunks_slices inputText j_main Hj1 eq_refl Hfit).
  by destruct (mainAt _).
Qed.

(** X3.  A run of [main] that ends, ends by [return]: no [std::out_of_range]
    leaves [main].  It returns 0 when help or the version was asked for, or
    when the input stream opens, the cipher is constructed and the output
    stream opens; it returns 1 in every other case. *)
Theorem main_exit_code settings io schedule :
  size (readLoop (inputStream io) []) < SIZE_MAX1 ->
  finished (main settings io schedule) = true ->
  exitCode (main settings io schedule)
  = Some (if helpRequested settings || versionRequested settings
             || (inputOpens settings io && constructs settings
                 && outputOpens settings io)
          then 0 else 1).
Proof.
  intros Hfit. unfold main, inputOpens, outputOpens, constructs.
  destruct (helpRequested settings); [done|].
  destruct (versionRequested settings); [done|].
  destruct (isEmpty (inputFile settings)), (inputGood io); simpl; try done.
  all: destruct (cipherFactory _ _) as [cipher|]; [|done].
  all: pose proof (chunkedApply_main_throws_never cipher (cipherMode settings)
                     schedule _ Hfit) as Hnone.
  all: destruct (chunkedApply _ _ _ _ _) as [[out|]|]; [|done..].
  all: by destruct (isEmpty (outputFile settings)), (outputGood io).
Qed.

Lemma main_exit_code_witness :
  exitCode (main playfairNoKey attackAtDawn outOfOrder)
  = Some (if helpRequested playfairNoKey || versionRequested playfairNoKey
             || (inputOpens playfairNoKey attackAtDawn
                 && constructs playfairNoKey
                 && outputOpens playfairNoKey attackAtDawn)
          then 0 else 1).
Proof.
  apply (main_exit_code playfairNoKey attackAtDawn outOfOrder); reflexivity.
Defined.

(** X4.  However far the threads have got, the run can be completed: after
    any schedule, letting the four workers complete and the main thread go
    on brings [main] to its end, with the outcome of every other run that
    ends. *)
Theorem main_can_always_finish settings io schedule :
  finished (main settings io (schedule ++ roundRobin 4)) = true /\
  main settings io (schedule ++ roundRobin 4) = main settings io (roundRobin 4).
Proof.
  assert (Hfin : finished (main settings io (schedule ++ roundRobin 4)) = true).
  { unfold main.
    destruct (helpRequested settings); [done|].
    destruct (versionRequested settings); [done|].
    destruct (negb (isEmpty (inputFile settings)) && negb (inputGood io));
      [done|].
    destruct (cipherFactory _ _) as [cipher|]; [|done].
    destruct (chunks (readLoop (inputStream io) []) j_main)
      as [chunkList|] eqn:Hc.
    - pose proof (chunkLoop_length _ _ _ _ _ Hc) as Hlen.
      change (N.to_nat j_main) with 4%nat in Hlen.
      rewrite <- Hlen.
      rewrite (chunkedApply_roundRobin _ _ _ schedule _ chunkList Hc)
        by (by destruct chunkList).
      by destruct (negb (isEmpty (outputFile settings))
                   && negb (outputGood io)).
    - unfold chunkedApply. by rewrite Hc. }
  split; [done | by apply main_finished].
Qed.

(** X5.  What [main] writes is made of four pieces: the text read is cut
    into [c0 ++ c1 ++ c2 ++ c3] with [c0], [c1] and [c2] of length
    [floor(size / 4)], and the output is the cipher applied to [c0], to
    [c1], to [c2] and to [c3], in this order. *)
Theorem main_writes_four_pieces settings io schedule outputText :
  size (readLoop (inputStream io) []) < SIZE_MAX1 ->
  main settings io schedule = Written outputText ->
  exists cipher c0 c1 c2 c3,
    cipherFactory (cipherType settings) (cipherKey settings) = Some cipher /\
    readLoop (inputStream io) [] = c0 ++ c1 ++ c2 ++ c3 /\
    size c0 = size (readLoop (inputStream io) []) / 4 /\
    size c1 = size (readLoop (inputStream io) []) / 4 /\
    size c2 = size (readLoop (inputStream io) []) / 4 /\
    outputText
    = applyCipher cipher c0 (cipherMode settings)
      ++ applyCipher cipher c1 (cipherMode settings)
      ++ applyCipher cipher c2 (cipherMode settings)
      ++ applyCipher cipher c3 (cipherMode settings).
Proof.
  intros Hfit. unfold main.
  destruct (helpRequested settings); [done|].
  destruct (versionRequested settings); [done|].
  destruct (negb (isEmpty (inputFile settings)) && negb (inputGood io)); [done|].
  destruct (cipherFactory _ _) as [cipher|]; [|done].
  set (inputText := readLoop (inputStream io) []) in *.
  destruct (chunkedApply _ _ _ _ _) as [[out|]|] eqn:E; [|done..].
  destruct (negb (isEmpty (outputFile settings)) && negb (outputGood io));
    [done|].
  intros [= ->].
  apply chunkedApply_joined in E as (chunkList & Hc & ->).
  assert (Hj1 : 1 <= j_main) by (unfold j_main; lia).
  assert (Hj2 : j_main < SIZE_MAX1) by reflexivity.
  pose proof (chunks_concat inputText j_main Hj1 Hj2 Hfit chunkList Hc) as Hcat.
  pose proof (size_slice inputText j_main Hj1 Hj2 Hfit) as Hsize.
  rewrite (chunks_slices inputText j_main Hj1 Hj2 Hfit) in Hc.
  change (N.to_nat j_main - 1)%nat with 3%nat in Hc.
  cbn [seq map app] in Hc. injection Hc as <-.
  cbn [concat] in Hcat. rewrite app_nil_r in Hcat.
  eexists cipher, _, _, _, _. split; [done|]. split; [by rewrite Hcat|].
  split; [apply (Hsize 0%nat); by vm_compute|].
  split; [apply (Hsize 1%nat); by vm_compute|].
  split; [apply (Hsize 2%nat); by vm_compute|].
  unfold joinChunks. cbn [map concat]. by rewrite app_nil_r.
Qed.

Lemma main_writes_four_pieces_witness :
  exists cipher c0 c1 c2 c3,
    cipherFactory (cipherType caesar3) (cipherKey caesar3) = Some cipher /\
    readLoop (inputStream attackAtDawn) [] = c0 ++ c1 ++ c2 ++ c3 /\
    size c0 = size (readLoop (inputStream attackAtDawn) []) / 4 /\
    size c1 = size (readLoop (inputStream attackAtDawn) []) / 4 /\
    size c2 = size (readLoop (inputStream attackAtDawn) []) / 4 /\
    str "DWWDFNDWGDZQ"
    = applyCipher cipher c0 (cipherMode caesar3)
      ++ applyCipher cipher c1 (cipherMode caesar3)
      ++ applyCipher cipher c2 (cipherMode caesar3)
      ++ applyCipher cipher c3 (cipherMode caesar3).
Proof.
  apply (main_writes_four_pieces caesar3 attackAtDawn outOfOrder
           (str "DWWDFNDWGDZQ")); reflexivity.
Defined.

(** ** Chunks and ciphers that work piece by piece *)

Lemma joinChunks_distributive cipher mode :
  (forall a b, applyCipher cipher (a ++ b) mode
               = applyCipher cipher a mode ++ applyCipher cipher b mode) ->
  forall chunkList,
    joinChunks cipher mode chunkList = applyCipher cipher (concat chunkList) mode.
Proof.
  intros Hdist.
  assert (Hnil : applyCipher cipher [] mode = []).
  { pose proof (f_equal length (Hdist [] [])) as Hlen.
    rewrite length_app in Hlen. simpl in Hlen.
    destruct (applyCipher cipher [] mode); [done | simpl in Hlen; lia]. }
  unfold joinChunks.
  induction chunkList as [|c cs IH]; simpl; [done|].
  by rewrite IH, Hdist.
Qed.

(** X6.  For a cipher whose result on [a ++ b] is its result on [a]
    followed by its result on [b], the text a run with [j] workers returns
    is the text of one call on the whole input, for every worker count
    [j >= 1] and every schedule. *)
Theorem chunked_is_sequential_when_distributive
    cipher mode j schedule inputText outputText :
  1 <= j -> j < SIZE_MAX1 -> size inputText < SIZE_MAX1 ->
  (forall a b, applyCipher cipher (a ++ b) mode
               = applyCipher cipher a mode ++ applyCipher cipher b mode) ->
  chunkedApply cipher mode j schedule inputText = Some (Some outputText) ->
  outputText = sequentialApply cipher mode inputText.
Proof.
  intros Hj1 Hj2 Hfit Hdist Hout.
  apply chunkedApply_joined in Hout as (chunkList & Hc & ->).
  rewrite (joinChunks_distributive cipher mode Hdist).
  by rewrite (chunks_concat inputText j Hj1 Hj2 Hfit chunkList Hc).
Qed.

Lemma chunked_is_sequential_when_distributive_witness :
  str "DWWDFNDWGDZQ"
  = sequentialApply (CaesarCipher 3) Encrypt (str "ATTACKATDAWN").
Proof.
  apply (chunked_is_sequential_when_distributive (CaesarCipher 3) Encrypt 3
           outOfOrder (str "ATTACKATDAWN") (str "DWWDFNDWGDZQ"));
    [lia | reflexivity | reflexivity | | reflexivity].
  intros a b. apply map_app.
Defined.

(** X7.  With more workers than characters ([size < j]) every worker but
    the last gets the empty string and the last gets the whole text. *)
Theorem chunks_of_short_text inputText j :
  1 <= j -> j < SIZE_MAX1 -> size inputText < j ->
  chunks inputText j = Some (replicate (N.to_nat j - 1) [] ++ [inputText]).
Proof.
  intros Hj1 Hj2 Hs.
  assert (Hfit : size inputText < SIZE_MAX1) by lia.
  rewrite (chunks_slices inputText j Hj1 Hj2 Hfit).
  rewrite (N.div_small _ _ Hs). change (N.to_nat 0) with 0%nat.
  assert (Hmap : forall n k,
            map (fun i : nat => take 0 (drop (i * 0) inputText)) (seq k n)
            = replicate n []).
  { induction n as [|n IH]; intros k; simpl; [done|]. by rewrite IH. }
  f_equal. f_equal; [apply Hmap|].
  by rewrite Nat.mul_0_r, drop_0.
Qed.

Lemma chunks_of_short_text_witness :
  chunks (str "AB") 6 = Some (replicate (N.to_nat 6 - 1) [] ++ [str "AB"]).
Proof.
  apply (chunks_of_short_text (str "AB") 6); [lia | reflexivity | reflexivity].
Defined.

(** ** The reading loop (lines 82-91) *)

(** X8.  White space in the input never reaches [inputText], wherever it
    stands, and reading is piecewise: the text read from a stream [a ++ b]
    is the text read from [a] followed by the text read from [b]. *)
Theorem reading_skips_white_space (a b : text) :
  readLoop (List.filter (fun c => negb (isspace c)) a) [] = readLoop a [] /\
  readLoop (a ++ b) [] = readLoop a [] ++ readLoop b [].
Proof.
  split.
  - induction a as [|c a IH]; simpl; [done|].
    destruct (isspace c) eqn:Hc; simpl; [done|].
    rewrite Hc, readLoop_app, (readLoop_app a). by rewrite IH.
  - induction a as [|c a IH]; simpl; [done|].
    destruct (isspace c); [done|].
    rewrite readLoop_app, (readLoop_app a), IH. by rewrite app_assoc.
Qed.

(** ** Encrypting and decrypting with the program *)

(** Pieces of one length are found again by slicing what they make up. *)
Lemma slices_of_pieces (L : nat) (ps : list text) :
  Forall (fun p => length p = L) ps ->
  forall last : text,
    map (fun i : nat => take L (drop (i * L) (concat (ps ++ [last]))))
        (seq 0 (length ps)) = ps /\
    drop (length ps * L) (concat (ps ++ [last])) = last.
Proof.
  induction 1 as [|p ps Hp Hps IH]; intros last.
  - simpl. by rewrite app_nil_r.
  - destruct (IH last) as [IHmap IHdrop].
    cbn [length app concat]. split.
    + cbn [seq map]. rewrite Nat.mul_0_l, drop_0. f_equal.
      * by apply take_app_length'.
      * rewrite <- fmap_S_seq, <- list_fmap_compose.
        rewrite <- IHmap at 2. apply map_ext. intros i. unfold compose.
        replace (S i * L)%nat with (L + i * L)%nat by lia.
        by rewrite (drop_app_add' p _ L (i * L) (eq_sym Hp)).
    + replace (S (length ps) * L)%nat with (L + length ps * L)%nat by lia.
      by rewrite (drop_app_add' p _ L (length ps * L) (eq_sym Hp)).
Qed.

Lemma chunks_of_pieces (ps : list text) (last : text) j :
  1 <= j -> j < SIZE_MAX1 ->
  size (concat (ps ++ [last])) < SIZE_MAX1 ->
  length ps = (N.to_nat j - 1)%nat ->
  Forall (fun p => length p
                   = N.to_nat (size (concat (ps ++ [last])) / j)) ps ->
  chunks (concat (ps ++ [last])) j = Some (ps ++ [last]).
Proof.
  intros Hj1 Hj2 Hfit Hlen Hps.
  rewrite (chunks_slices _ j Hj1 Hj2 Hfit). rewrite <- Hlen.
  destruct (slices_of_pieces _ ps Hps last) as [Hmap Hdrop].
  f_equal. f_equal; [exact Hmap | f_equal; exact Hdrop].
Qed.

Lemma chunks_pieces inputText j chunkList :
  1 <= j -> j < SIZE_MAX1 -> size inputText < SIZE_MAX1 ->
  chunks inputText j = Some chunkList ->
  exists ps last,
    chunkList = ps ++ [last] /\
    length ps = (N.to_nat j - 1)%nat /\
    Forall (fun p => length p = N.to_nat (size inputText / j)) ps.
Proof.
  intros Hj1 Hj2 Hfit.
  rewrite (chunks_slices _ j Hj1 Hj2 Hfit). intros [= <-].
  eexists _, _. split; [reflexivity|].
  split; [by rewrite length_map, length_seq|].
  apply Forall_fmap, Forall_seq. intros i Hi. simpl.
  pose proof (size_slice inputText j Hj1 Hj2 Hfit i ltac:(lia)) as Hsize.
  unfold size in Hsize. simpl in Hsize. unfold size. lia.
Qed.

Lemma length_joinChunks cipher mode chunkList :
  (forall t, length (applyCipher cipher t mode) = length t) ->
  length (joinChunks cipher mode chunkList) = length (concat chunkList).
Proof.
  intros Hlen. unfold joinChunks.
  induction chunkList as [|c cs IH]; simpl; [done|].
  by rewrite !length_app, Hlen, IH.
Qed.

(** X9.  For a cipher that keeps the length of a text and whose [Decrypt]
    undoes its [Encrypt] on every text, decrypting with the program what the
    program encrypted gives the text back, for every worker count [j >= 1]
    and whatever the two schedules: the second run cuts where the first one
    did. *)
Theorem chunked_round_trip cipher j schedule1 schedule2
    (inputText encrypted decrypted : text) :
  1 <= j -> j < SIZE_MAX1 -> size inputText < SIZE_MAX1 ->
  (forall t, length (applyCipher cipher t Encrypt) = length t) ->
  (forall t, applyCipher cipher (applyCipher cipher t Encrypt) Decrypt = t) ->
  chunkedApply cipher Encrypt j schedule1 inputText = Some (Some encrypted) ->
  chunkedApply cipher Decrypt j schedule2 encrypted = Some (Some decrypted) ->
  decrypted = inputText.
Proof.
  intros Hj1 Hj2 Hfit Hlen Hinv Henc Hdec.
  apply chunkedApply_joined in Henc as (cs & Hcs & ->).
  apply chunkedApply_joined in Hdec as (ds & Hds & ->).
  pose proof (chunks_concat inputText j Hj1 Hj2 Hfit cs Hcs) as Hcat.
  destruct (chunks_pieces inputText j cs Hj1 Hj2 Hfit Hcs)
    as (ps & last & -> & Hn & Hps).
  assert (Hsize : size (joinChunks cipher Encrypt (ps ++ [last]))
                  = size inputText).
  { unfold size. by rewrite (length_joinChunks _ _ _ Hlen), Hcat. }
  assert (Hds' : chunks (joinChunks cipher Encrypt (ps ++ [last])) j
                 = Some (map (fun c => applyCipher cipher c Encrypt)
                           (ps ++ [last]))).
  { revert Hsize. unfold joinChunks. rewrite map_app. cbn [map].
    intros Hsize. apply chunks_of_pieces; try done.
    - by rewrite Hsize.
    - by rewrite length_map.
    - rewrite Hsize. apply Forall_fmap.
      eapply Forall_impl; [exact Hps|]. intros p Hp. simpl.
      by rewrite Hlen. }
  rewrite Hds' in Hds. injection Hds as <-.
  rewrite <- Hcat. unfold joinChunks. f_equal.
  rewrite map_map. rewrite <- (map_id (ps ++ [last])) at 2.
  apply map_ext. intros c. apply Hinv.
Qed.

Lemma chunked_round_trip_witness : str "ATTACKATDAWN" = str "ATTACKATDAWN".
Proof.
  apply (chunked_round_trip (CaesarCipher 3) 4 outOfOrder (roundRobin 4)
           (str "ATTACKATDAWN") (str "DWWDFNDWGDZQ") (str "ATTACKATDAWN"));
    [lia | reflexivity | reflexivity | | | reflexivity | reflexivity].
  - intros t. apply length_map.
  - intros t. apply caesar_round_trip.
Defined.
